(** * CattoPic worker: header-only image metadata extraction

    Shallow embedding of [worker/src/services/imageProcessor.ts]
    (class [ImageProcessor]) and the properties of its format detector,
    its per-format dimension readers and its lookup tables. *)

From Stdlib Require Import ZArith Lia Bool Strings.Ascii Strings.String Strings.Byte.
From stdpp Require Import base option list gmap strings.

Local Open Scope string_scope.
Local Open Scope list_scope.
Local Open Scope Z_scope.

(** ** JavaScript numbers under the bitwise operators

    The operands of [<<], [>>], [|] and [&] go through ToInt32 and the
    result is a signed 32-bit integer.  The other arithmetic of the file
    ([+] on offsets and on small values) stays far below 2^53 and is exact,
    so it is plain addition on [Z]. *)
Module JS.

Definition ToInt32 (n : Z) : Z := (n + 2 ^ 31) mod 2 ^ 32 - 2 ^ 31.

Definition shl (a n : Z) : Z := ToInt32 (Z.shiftl (ToInt32 a) (n mod 32)).
Definition sar (a n : Z) : Z := Z.shiftr (ToInt32 a) (n mod 32).
Definition bor (a b : Z) : Z := Z.lor (ToInt32 a) (ToInt32 b).
Definition band (a b : Z) : Z := Z.land (ToInt32 a) (ToInt32 b).

End JS.

Declare Scope js_scope.
Delimit Scope js_scope with js.
Infix "<<" := JS.shl (at level 32, left associativity) : js_scope.
Infix ">>" := JS.sar (at level 32, left associativity) : js_scope.
Infix ".&" := JS.band (at level 36, left associativity) : js_scope.
Infix ".|" := JS.bor (at level 38, left associativity) : js_scope.
Local Open Scope js_scope.

(** ** Typed arrays

    A [Uint8Array] is a finite sequence of bytes.  Reading an index outside
    [0 .. length-1] (negative ones included) yields [undefined], here [None]. *)
Abbreviation Uint8Array := (list byte).
Abbreviation ArrayBuffer := (list byte).

Definition byte_to_Z (b : byte) : Z := Z.of_N (Byte.to_N b).

(** [bytes[i]] *)
Definition idx (bytes : Uint8Array) (i : Z) : option byte :=
  if i <? 0 then None else bytes !! Z.to_nat i.

(** [bytes.length] *)
Definition len (bytes : Uint8Array) : Z := Z.of_nat (length bytes).

(** [bytes[i]] as the operand of a bitwise operator: [undefined] is
    converted to NaN and then to 0. *)
Definition u8 (bytes : Uint8Array) (i : Z) : Z :=
  match idx bytes i with Some b => byte_to_Z b | None => 0 end.

(** [v === c] for an element [v] and a number literal [c]. *)
Definition seq (v : option byte) (c : Z) : bool :=
  match v with Some b => byte_to_Z b =? c | None => false end.

(** [v !== c] *)
Definition sne (v : option byte) (c : Z) : bool := negb (seq v c).

(** [v >= c] and [v <= c]: a comparison with [undefined] (NaN) is false. *)
Definition geq (v : option byte) (c : Z) : bool :=
  match v with Some b => c <=? byte_to_Z b | None => false end.
Definition leq (v : option byte) (c : Z) : bool :=
  match v with Some b => byte_to_Z b <=? c | None => false end.

(** [String.fromCharCode(v1, ..., vn)]: each argument goes through ToUint16,
    which sends [undefined] to the code unit 0. *)
Definition charOf (v : option byte) : ascii :=
  match v with Some b => ascii_of_byte b | None => "000"%char end.
Definition fromCharCode (vs : list (option byte)) : string :=
  string_of_list_ascii (map charOf vs).

(** The multi-byte reads the source composes inline with shifts and ors. *)
Definition be32 (bytes : Uint8Array) (o : Z) : Z :=
  (u8 bytes o << 24) .| (u8 bytes (o + 1) << 16) .| (u8 bytes (o + 2) << 8) .| u8 bytes (o + 3).
Definition be16 (bytes : Uint8Array) (o : Z) : Z :=
  (u8 bytes o << 8) .| u8 bytes (o + 1).
Definition le16 (bytes : Uint8Array) (o : Z) : Z :=
  u8 bytes o .| (u8 bytes (o + 1) << 8).
Definition le24 (bytes : Uint8Array) (o : Z) : Z :=
  u8 bytes o .| (u8 bytes (o + 1) << 8) .| (u8 bytes (o + 2) << 16).

(** ** Format detection *)

Definition jpegCheck (bytes : Uint8Array) : bool :=
  seq (idx bytes 0) 0xFF && seq (idx bytes 1) 0xD8 && seq (idx bytes 2) 0xFF.

Definition pngCheck (bytes : Uint8Array) : bool :=
  seq (idx bytes 0) 0x89 && seq (idx bytes 1) 0x50 && seq (idx bytes 2) 0x4E
  && seq (idx bytes 3) 0x47.

Definition gifCheck (bytes : Uint8Array) : bool :=
  seq (idx bytes 0) 0x47 && seq (idx bytes 1) 0x49 && seq (idx bytes 2) 0x46
  && seq (idx bytes 3) 0x38.

Definition webpCheck (bytes : Uint8Array) : bool :=
  seq (idx bytes 0) 0x52 && seq (idx bytes 1) 0x49 && seq (idx bytes 2) 0x46
  && seq (idx bytes 3) 0x46
  && seq (idx bytes 8) 0x57 && seq (idx bytes 9) 0x45 && seq (idx bytes 10) 0x42
  && seq (idx bytes 11) 0x50.

Definition avifCheck (bytes : Uint8Array) : bool :=
  seq (idx bytes 4) 0x66 && seq (idx bytes 5) 0x74 && seq (idx bytes 6) 0x79
  && seq (idx bytes 7) 0x70
  && (let brand := fromCharCode [idx bytes 8; idx bytes 9; idx bytes 10; idx bytes 11] in
      String.eqb brand "avif" || String.eqb brand "avis").

Definition detectFormat (data : ArrayBuffer) : string :=
  let bytes : Uint8Array := take 12 data in
  if jpegCheck bytes then "jpeg"
  else if pngCheck bytes then "png"
  else if gifCheck bytes then "gif"
  else if webpCheck bytes then "webp"
  else if avifCheck bytes then "avif"
  else "unknown".


(** ** Dimension readers *)

Record Dimensions := { width : Z; height : Z }.

Definition fallback : Dimensions := {| width := 1920; height := 1080 |}.

Definition getPngDimensions (bytes : Uint8Array) : Dimensions :=
  {| width := be32 bytes 16; height := be32 bytes 20 |}.

Definition getGifDimensions (bytes : Uint8Array) : Dimensions :=
  {| width := le16 bytes 6; height := le16 bytes 8 |}.

(** What one execution of a loop body does: go round again at a new
    offset, leave the loop ([break]), or return from the function. *)
Inductive outcome :=
  | Next (i : Z)
  | Break
  | Return (d : Dimensions).

(** The Start-Of-Frame test on the marker byte. *)
Definition isSOF (marker : option byte) : bool :=
  geq marker 0xC0 && leq marker 0xCF
  && sne marker 0xC4 && sne marker 0xC8 && sne marker 0xCC.

(** Body of the [while (i < bytes.length)] loop of [getJpegDimensions]. *)
Definition jpegBody (bytes : Uint8Array) (i : Z) : outcome :=
  if sne (idx bytes i) 0xFF then Next (i + 1)
  else
    let marker := idx bytes (i + 1) in
    if isSOF marker then
      Return {| width := be16 bytes (i + 7); height := be16 bytes (i + 5) |}
    else
      let length := be16 bytes (i + 2) in
      Next (i + (2 + length)).

(** The loop, with [fuel] bounding the number of body executions; [None]
    means the bound was reached with the loop still running. *)
Fixpoint jpegLoop (fuel : nat) (bytes : Uint8Array) (i : Z) : option Dimensions :=
  if i <? len bytes then
    match fuel with
    | O => None
    | S fuel' =>
        match jpegBody bytes i with
        | Next i' => jpegLoop fuel' bytes i'
        | Break => Some fallback
        | Return d => Some d
        end
    end
  else Some fallback.

Definition getJpegDimensions (fuel : nat) (bytes : Uint8Array) : option Dimensions :=
  jpegLoop fuel bytes 2.

Definition getWebpDimensions (bytes : Uint8Array) : Dimensions :=
  if seq (idx bytes 12) 0x56 && seq (idx bytes 13) 0x50 && seq (idx bytes 14) 0x38
     && seq (idx bytes 15) 0x58 then
    {| width := le24 bytes 24 + 1; height := le24 bytes 27 + 1 |}
  else if seq (idx bytes 12) 0x56 && seq (idx bytes 13) 0x50 && seq (idx bytes 14) 0x38
     && seq (idx bytes 15) 0x4C then
    let b0 := u8 bytes 21 in
    let b1 := u8 bytes 22 in
    let b2 := u8 bytes 23 in
    let b3 := u8 bytes 24 in
    {| width := ((b0 .| (b1 << 8)) .& 0x3FFF) + 1;
       height := (((b1 >> 6) .| (b2 << 2) .| (b3 << 10)) .& 0x3FFF) + 1 |}
  else if seq (idx bytes 12) 0x56 && seq (idx bytes 13) 0x50 && seq (idx bytes 14) 0x38
     && seq (idx bytes 15) 0x20 then
    {| width := le16 bytes 26 .& 0x3FFF; height := le16 bytes 28 .& 0x3FFF |}
  else fallback.

(** [['meta', 'iprp', 'ipco'].includes(boxType)] *)
Definition includes (l : list string) (s : string) : bool := existsb (String.eqb s) l.

(** Body of the [while (offset < bytes.length - 8)] loop of
    [getAvifDimensions]. *)
Definition avifBody (bytes : Uint8Array) (offset : Z) : outcome :=
  let boxSize := be32 bytes offset in
  let boxType := fromCharCode [idx bytes (offset + 4); idx bytes (offset + 5);
                               idx bytes (offset + 6); idx bytes (offset + 7)] in
  if boxSize =? 0 then Break
  else if String.eqb boxType "ispe" then
    Return {| width := be32 bytes (offset + 12); height := be32 bytes (offset + 16) |}
  else if includes ["meta"; "iprp"; "ipco"] boxType then
    Next (offset + (if String.eqb boxType "meta" then 12 else 8))
  else Next (offset + boxSize).

Fixpoint avifLoop (fuel : nat) (bytes : Uint8Array) (offset : Z) : option Dimensions :=
  if offset <? len bytes - 8 then
    match fuel with
    | O => None
    | S fuel' =>
        match avifBody bytes offset with
        | Next offset' => avifLoop fuel' bytes offset'
        | Break => Some fallback
        | Return d => Some d
        end
    end
  else Some fallback.

Definition getAvifDimensions (fuel : nat) (bytes : Uint8Array) : option Dimensions :=
  avifLoop fuel bytes 0.

(** The promise returned by the [async] method is modelled by the value it
    resolves to; [fuel] bounds the two loops as above. *)
Definition getImageDimensions (fuel : nat) (data : ArrayBuffer) : option Dimensions :=
  let bytes : Uint8Array := data in
  let format := detectFormat data in
  if String.eqb format "png" then Some (getPngDimensions bytes)
  else if String.eqb format "jpeg" then getJpegDimensions fuel bytes
  else if String.eqb format "gif" then Some (getGifDimensions bytes)
  else if String.eqb format "webp" then Some (getWebpDimensions bytes)
  else if String.eqb format "avif" then getAvifDimensions fuel bytes
  else Some fallback.

(** ** Metadata assembly *)

Definition detectOrientation (width height : Z) : string :=
  if height <=? width then "landscape" else "portrait".

Record ImageInfo := {
  info_width : Z;
  info_height : Z;
  info_format : string;
  info_orientation : string
}.

Definition getImageInfo (fuel : nat) (data : ArrayBuffer) : option ImageInfo :=
  let format := detectFormat data in
  match getImageDimensions fuel data with
  | Some d =>
      Some {| info_width := width d; info_height := height d;
              info_format := format;
              info_orientation := detectOrientation (width d) (height d) |}
  | None => None
  end.

(** ** Lookup tables

    [extensions] is an object literal, so [extensions[format]] finds its six
    own properties and, for any other key, whatever the literal inherits
    from [Object.prototype].  The inherited members are functions (and, for
    [__proto__], the prototype object itself): truthy values that are not
    strings. *)
Inductive value :=
  | Str (s : string)
  | Inherited (name : string).

Definition ObjectPrototype : gset string :=
  list_to_set ["constructor"; "toString"; "toLocaleString"; "valueOf";
               "hasOwnProperty"; "isPrototypeOf"; "propertyIsEnumerable";
               "__proto__"; "__defineGetter__"; "__defineSetter__";
               "__lookupGetter__"; "__lookupSetter__"].

(** [obj[key]] for an object literal with the own properties [own]. *)
Definition getProp (own : gmap string string) (key : string) : option value :=
  match own !! key with
  | Some v => Some (Str v)
  | None => if decide (key ∈ ObjectPrototype) then Some (Inherited key) else None
  end.

Definition truthy (v : value) : bool :=
  match v with
  | Str s => negb (String.eqb s "")
  | Inherited _ => true
  end.

(** [o || d] where [o] is the result of a property read. *)
Definition or_else (o : option value) (d : value) : value :=
  match o with
  | Some v => if truthy v then v else d
  | None => d
  end.

Definition extensions : gmap string string :=
  list_to_map [("jpeg", "jpg"); ("jpg", "jpg"); ("png", "png");
               ("gif", "gif"); ("webp", "webp"); ("avif", "avif")].

Definition getExtension (format : string) : value :=
  or_else (getProp extensions format) (Str format).

Definition types : gmap string string :=
  list_to_map [("jpeg", "image/jpeg"); ("jpg", "image/jpeg"); ("png", "image/png");
               ("gif", "image/gif"); ("webp", "image/webp"); ("avif", "image/avif")].

Definition getContentType (format : string) : value :=
  or_else (getProp types format) (Str "application/octet-stream").

Definition isValidFileSize (size maxSize : Z) : bool := size <=? maxSize.

(** ** Sample buffers *)

(** The 8-byte PNG signature, the IHDR chunk header and IHDR's first eight
    data bytes. *)
Definition png_header (w3 w2 w1 w0 h3 h2 h1 h0 : byte) : ArrayBuffer :=
  [x89; x50; x4e; x47; x0d; x0a; x1a; x0a; x00; x00; x00; x0d; x49; x48; x44; x52;
   w3; w2; w1; w0; h3; h2; h1; h0].

(** SOI, a 16-byte APP0 (JFIF) segment, then SOF0 with height 600 = 0x0258
    and width 800 = 0x0320. *)
Definition jpeg_app0_sof0 : ArrayBuffer :=
  [xff; xd8;
   xff; xe0; x00; x10; x4a; x46; x49; x46; x00; x01; x01; x00; x00; x01; x00; x01; x00; x00;
   xff; xc0; x00; x11; x08; x02; x58; x03; x20; x03; x01; x22; x00; x02; x11; x01; x03; x11; x01].

(** SOI, the same APP0 segment, then EOI: no frame header at all. *)
Definition jpeg_no_sof : ArrayBuffer :=
  [xff; xd8;
   xff; xe0; x00; x10; x4a; x46; x49; x46; x00; x01; x01; x00; x00; x01; x00; x01; x00; x00;
   xff; xd9].

#[global] Instance byte_eq_dec : EqDecision byte := Byte.byte_eq_dec.

Arguments byte_to_Z : simpl never.

(** ** Signatures, as the format descriptions give them *)

(** [bytes_at data o sig]: the bytes of [data] at offsets [o], [o+1], ...
    are those of [sig]. *)
Definition bytes_at (data : ArrayBuffer) (o : nat) (sig : list byte) : Prop :=
  take (length sig) (drop o data) = sig.

#[global] Instance bytes_at_dec data o sig : Decision (bytes_at data o sig).
Proof. unfold bytes_at. apply _. Defined.

Definition sigJPEG (data : ArrayBuffer) : Prop := bytes_at data 0 [xff; xd8; xff].
Definition sigPNG (data : ArrayBuffer) : Prop := bytes_at data 0 [x89; x50; x4e; x47].
Definition sigGIF (data : ArrayBuffer) : Prop := bytes_at data 0 [x47; x49; x46; x38].
(** "RIFF" and "WEBP" *)
Definition sigWEBP (data : ArrayBuffer) : Prop :=
  bytes_at data 0 [x52; x49; x46; x46] /\ bytes_at data 8 [x57; x45; x42; x50].
(** "ftyp", then the brand "avif" or "avis" *)
Definition sigAVIF (data : ArrayBuffer) : Prop :=
  bytes_at data 4 [x66; x74; x79; x70]
  /\ (bytes_at data 8 [x61; x76; x69; x66] \/ bytes_at data 8 [x61; x76; x69; x73]).

(** The tag of the first rule that matches, in the order of the list. *)
Definition firstMatch (data : ArrayBuffer) : string :=
  if decide (sigJPEG data) then "jpeg"
  else if decide (sigPNG data) then "png"
  else if decide (sigGIF data) then "gif"
  else if decide (sigWEBP data) then "webp"
  else if decide (sigAVIF data) then "avif"
  else "unknown".

(** The five signature tests of [detectFormat], in the order of the source,
    on the 12-byte prefix it works on. *)
Definition signatureChecks (data : ArrayBuffer) : list bool :=
  let bytes := take 12 data in
  [jpegCheck bytes; pngCheck bytes; gifCheck bytes; webpCheck bytes; avifCheck bytes].

(** At most one test of the list succeeds. *)
Definition atMostOne (checks : list bool) : Prop :=
  (length (filter (fun b => b = true) checks) <= 1)%nat.

(** "RIFF....WEBP" is not needed to clash: a JPEG start followed by an
    [ftyp] box type and the [avif] brand. *)
Definition jpeg_and_avif : ArrayBuffer :=
  [xff; xd8; xff; x00; x66; x74; x79; x70; x61; x76; x69; x66].

(** ** WebP chunk tags and little-endian fields, as the format gives them *)

Definition VP8X : list byte := [x56; x50; x38; x58].
Definition VP8L : list byte := [x56; x50; x38; x4c].
(** "VP8 " with its trailing space *)
Definition VP8_ : list byte := [x56; x50; x38; x20].

(** The 4-byte chunk tag at offset 12. *)
Definition chunkTag (bytes : Uint8Array) (tag : list byte) : Prop := bytes_at bytes 12 tag.

(** Unsigned little-endian values of 16 and 24 bits at offset [o]; a byte
    past the end counts as 0. *)
Definition LE16 (bytes : Uint8Array) (o : Z) : Z :=
  u8 bytes o + 2 ^ 8 * u8 bytes (o + 1).
Definition LE24 (bytes : Uint8Array) (o : Z) : Z :=
  u8 bytes o + 2 ^ 8 * u8 bytes (o + 1) + 2 ^ 16 * u8 bytes (o + 2).

(** RIFF/WEBP header, a VP8L chunk, the signature byte 0x2F, then the
    packed 14-bit fields width-1 = 99 and height-1 = 49:
    99 + 49 * 2^14 = 0x000C4063, little-endian 63 40 0C 00. *)
Definition vp8l_100x50 : ArrayBuffer :=
  [x52; x49; x46; x46; x1a; x00; x00; x00; x57; x45; x42; x50;
   x56; x50; x38; x4c; x0d; x00; x00; x00;
   x2f; x63; x40; x0c; x00; x00; x00; x00; x00; x00].

(** ** The JPEG marker scan, as the format description tells it *)

(** Start-Of-Frame markers: 0xC0 .. 0xCF without DHT, JPG and DAC. *)
Definition sofMarker (m : Z) : Prop :=
  0xC0 <= m <= 0xCF /\ m <> 0xC4 /\ m <> 0xC8 /\ m <> 0xCC.

#[global] Instance sofMarker_dec m : Decision (sofMarker m).
Proof. unfold sofMarker. apply _. Defined.

(** Unsigned big-endian 16-bit value at offset [o]; a byte past the end
    counts as 0. *)
Definition BE16 (bytes : Uint8Array) (o : Z) : Z :=
  2 ^ 8 * u8 bytes o + u8 bytes (o + 1).

(** [JpegScan bytes i d]: the scan that stands at offset [i] ends with the
    dimensions [d]. *)
Inductive JpegScan (bytes : Uint8Array) : Z -> Dimensions -> Prop :=
  | scan_exhausted i :
      len bytes <= i ->
      JpegScan bytes i fallback
  | scan_fill i d :
      i < len bytes -> u8 bytes i <> 0xFF ->
      JpegScan bytes (i + 1) d ->
      JpegScan bytes i d
  | scan_sof i :
      i < len bytes -> u8 bytes i = 0xFF -> sofMarker (u8 bytes (i + 1)) ->
      JpegScan bytes i {| width := BE16 bytes (i + 7); height := BE16 bytes (i + 5) |}
  | scan_skip i d :
      i < len bytes -> u8 bytes i = 0xFF -> ~ sofMarker (u8 bytes (i + 1)) ->
      JpegScan bytes (i + (2 + BE16 bytes (i + 2))) d ->
      JpegScan bytes i d.

(** ** The loop of [getAvifDimensions], as a relation *)

(** What the shifts and ors of the code make of the four bytes at offset
    [o]: the big-endian field taken as a signed 32-bit integer, that is the
    unsigned value when that is below 2^31, and 2^32 less otherwise.  A
    byte past the end counts as 0. *)
Definition BE32 (bytes : Uint8Array) (o : Z) : Z :=
  JS.ToInt32 (2 ^ 24 * u8 bytes o + 2 ^ 16 * u8 bytes (o + 1)
              + 2 ^ 8 * u8 bytes (o + 2) + u8 bytes (o + 3)).

(** The box that starts at [o] has the 4-character type [t]. *)
Definition typeAt (bytes : Uint8Array) (o : Z) (t : list byte) : Prop :=
  map (idx bytes) [o + 4; o + 5; o + 6; o + 7] = map Some t.

#[global] Instance typeAt_dec bytes o t : Decision (typeAt bytes o t).
Proof. unfold typeAt. apply _. Defined.

Definition ispe : list byte := [x69; x73; x70; x65].
Definition meta : list byte := [x6d; x65; x74; x61].
Definition iprp : list byte := [x69; x70; x72; x70].
Definition ipco : list byte := [x69; x70; x63; x6f].

(** [AvifWalk bytes o d]: the loop of the code, entered with [offset = o],
    returns the dimensions [d].  Box sizes and ispe fields are the signed
    values [BE32] that the code computes, not the unsigned fields of the
    format; a run that goes round for ever has no derivation. *)
Inductive AvifWalk (bytes : Uint8Array) : Z -> Dimensions -> Prop :=
  | walk_past_end o :
      len bytes - 8 <= o ->
      AvifWalk bytes o fallback
  | walk_size_zero o :
      o < len bytes - 8 -> BE32 bytes o = 0 ->
      AvifWalk bytes o fallback
  | walk_ispe o :
      o < len bytes - 8 -> BE32 bytes o <> 0 -> typeAt bytes o ispe ->
      AvifWalk bytes o {| width := BE32 bytes (o + 12); height := BE32 bytes (o + 16) |}
  | walk_meta o d :
      o < len bytes - 8 -> BE32 bytes o <> 0 -> typeAt bytes o meta ->
      AvifWalk bytes (o + 12) d ->
      AvifWalk bytes o d
  | walk_container o d :
      o < len bytes - 8 -> BE32 bytes o <> 0 ->
      typeAt bytes o iprp \/ typeAt bytes o ipco ->
      AvifWalk bytes (o + 8) d ->
      AvifWalk bytes o d
  | walk_skip o d :
      o < len bytes - 8 -> BE32 bytes o <> 0 ->
      ~ typeAt bytes o ispe -> ~ typeAt bytes o meta ->
      ~ typeAt bytes o iprp -> ~ typeAt bytes o ipco ->
      AvifWalk bytes (o + BE32 bytes o) d ->
      AvifWalk bytes o d.

(** [ftyp] (brand avif), then [meta] > [iprp] > [ipco] > [ispe] with
    width 1200 = 0x04B0 and height 800 = 0x0320. *)
Definition avif_ftyp : list byte :=
  [x00; x00; x00; x18; x66; x74; x79; x70; x61; x76; x69; x66; x00; x00; x00; x00;
   x61; x76; x69; x66; x6d; x69; x66; x31].

Definition avif_1200x800 : ArrayBuffer :=
  avif_ftyp ++
  [x00; x00; x00; x30; x6d; x65; x74; x61; x00; x00; x00; x00;
   x00; x00; x00; x24; x69; x70; x72; x70;
   x00; x00; x00; x1c; x69; x70; x63; x6f;
   x00; x00; x00; x14; x69; x73; x70; x65; x00; x00; x00; x00;
   x00; x00; x04; xb0; x00; x00; x03; x20].

(** The same buffer with the [ispe] box taken out. *)
Definition avif_no_ispe : ArrayBuffer :=
  avif_ftyp ++
  [x00; x00; x00; x30; x6d; x65; x74; x61; x00; x00; x00; x00;
   x00; x00; x00; x24; x69; x70; x72; x70;
   x00; x00; x00; x1c; x69; x70; x63; x6f].

(** An [ftyp] box of 16 bytes followed by a [free] box whose size field is
    FF FF FF F0. *)
Definition avif_cycle : ArrayBuffer :=
  [x00; x00; x00; x10; x66; x74; x79; x70; x61; x76; x69; x66; x00; x00; x00; x00;
   xff; xff; xff; xf0; x66; x72; x65; x65;
   x00].

(** A PNG header whose IHDR width field is 80 00 00 00 and whose height
    field is 00 00 00 01. *)
Definition png_top_bit : ArrayBuffer :=
  png_header x80 x00 x00 x00 x00 x00 x00 x01.

(** [avif_1200x800] with the width field of its ispe box set to
    FF FF FF FF. *)
Definition avif_top_bit : ArrayBuffer :=
  take 64 avif_1200x800 ++ [xff; xff; xff; xff; x00; x00; x03; x20].

(** The four bytes of the PNG signature and nothing else. *)
Definition png_signature_only : ArrayBuffer := [x89; x50; x4e; x47].

(** A buffer is too short for the fixed dimension fields of its format:
    PNG has them at 16..23, GIF at 6..9. *)
Definition truncated (data : ArrayBuffer) : Prop :=
  (detectFormat data = "png" /\ (length data < 24)%nat)
  \/ (detectFormat data = "gif" /\ (length data < 10)%nat).

(** ** The support test

    [format.toLowerCase()].  Strings are sequences of code units below 256
    (the Latin-1 range).  There the upper-case letters are A .. Z and
    U+00C0 .. U+00DE without the multiplication sign U+00D7, and each has
    its lower-case form 0x20 above it; every other code unit is left as
    it is. *)
Definition lowerChar (c : ascii) : ascii :=
  let n := N_of_ascii c in
  if ((65 <=? n) && (n <=? 90)
      || (192 <=? n) && (n <=? 222) && negb (n =? 215))%N
  then ascii_of_N (n + 32)
  else c.

Fixpoint toLowerCase (s : string) : string :=
  match s with
  | EmptyString => EmptyString
  | String c s' => String (lowerChar c) (toLowerCase s')
  end.

Definition supported : list string := ["jpeg"; "jpg"; "png"; "gif"; "webp"; "avif"].

Definition isSupportedFormat (format : string) : bool :=
  includes supported (toLowerCase format).

(** ** Unsigned field values *)

(** Unsigned big-endian and little-endian 32-bit values at offset [o]; a
    byte past the end counts as 0. *)
Definition UBE32 (bytes : Uint8Array) (o : Z) : Z :=
  2 ^ 24 * u8 bytes o + 2 ^ 16 * u8 bytes (o + 1) + 2 ^ 8 * u8 bytes (o + 2)
  + u8 bytes (o + 3).
Definition LE32 (bytes : Uint8Array) (o : Z) : Z :=
  u8 bytes o + 2 ^ 8 * u8 bytes (o + 1) + 2 ^ 16 * u8 bytes (o + 2)
  + 2 ^ 24 * u8 bytes (o + 3).

(** ** The ISO-BMFF box walk, as the format description tells it

    Box sizes and the width and height of the ispe box are unsigned
    big-endian 32-bit fields.  [IsoWalk bytes o reads d]: the walk that
    stands at offset [o] ends with the dimensions [d], after reading the
    32-bit fields at the offsets [reads]. *)
Inductive IsoWalk (bytes : Uint8Array) : Z -> list Z -> Dimensions -> Prop :=
  | iso_past_end o :
      len bytes - 8 <= o ->
      IsoWalk bytes o [] fallback
  | iso_size_zero o :
      o < len bytes - 8 -> UBE32 bytes o = 0 ->
      IsoWalk bytes o [o] fallback
  | iso_ispe o :
      o < len bytes - 8 -> UBE32 bytes o <> 0 -> typeAt bytes o ispe ->
      IsoWalk bytes o [o; o + 12; o + 16]
        {| width := UBE32 bytes (o + 12); height := UBE32 bytes (o + 16) |}
  | iso_meta o reads d :
      o < len bytes - 8 -> UBE32 bytes o <> 0 -> typeAt bytes o meta ->
      IsoWalk bytes (o + 12) reads d ->
      IsoWalk bytes o (o :: reads) d
  | iso_container o reads d :
      o < len bytes - 8 -> UBE32 bytes o <> 0 ->
      typeAt bytes o iprp \/ typeAt bytes o ipco ->
      IsoWalk bytes (o + 8) reads d ->
      IsoWalk bytes o (o :: reads) d
  | iso_skip o reads d :
      o < len bytes - 8 -> UBE32 bytes o <> 0 ->
      ~ typeAt bytes o ispe -> ~ typeAt bytes o meta ->
      ~ typeAt bytes o iprp -> ~ typeAt bytes o ipco ->
      IsoWalk bytes (o + UBE32 bytes o) reads d ->
      IsoWalk bytes o (o :: reads) d.

(** The formats [detectFormat] can name. *)
Definition formats : list string := ["jpeg"; "png"; "gif"; "webp"; "avif"; "unknown"].

(** * Properties *)

(** ** Sample runs *)

Example detect_jpeg3 : detectFormat [xff; xd8; xff] = "jpeg".
Proof. reflexivity. Qed.

Example png_640x480 :
  getImageDimensions 0 (png_header x00 x00 x02 x80 x00 x00 x01 xe0)
  = Some {| width := 640; height := 480 |}.
Proof. reflexivity. Qed.

Example jpeg_800x600 :
  getImageDimensions 2 jpeg_app0_sof0 = Some {| width := 800; height := 600 |}.
Proof. reflexivity. Qed.

Example ext_jpeg : getExtension "jpeg" = Str "jpg".
Proof. reflexivity. Qed.

Example ext_constructor : getExtension "constructor" = Inherited "constructor".
Proof. reflexivity. Qed.



(** ** Bytes and element reads *)

Lemma byte_to_Z_range (b : byte) : 0 <= byte_to_Z b < 256.
Proof. unfold byte_to_Z. pose proof (Byte.to_N_bounded b). lia. Qed.

Lemma byte_to_Z_inj (b c : byte) : byte_to_Z b = byte_to_Z c -> b = c.
Proof.
  unfold byte_to_Z. intros H. apply N2Z.inj in H.
  pose proof (Byte.of_to_N b) as Hb. pose proof (Byte.of_to_N c) as Hc.
  congruence.
Qed.

Lemma idx_nat (bytes : Uint8Array) (n : nat) : idx bytes (Z.of_nat n) = bytes !! n.
Proof.
  unfold idx. destruct (Z.ltb_spec (Z.of_nat n) 0); [lia|].
  by rewrite Nat2Z.id.
Qed.

Lemma idx_neg (bytes : Uint8Array) (i : Z) : i < 0 -> idx bytes i = None.
Proof. intros H. unfold idx. by destruct (Z.ltb_spec i 0); [|lia]. Qed.

Lemma idx_ge (bytes : Uint8Array) (i : Z) : len bytes <= i -> idx bytes i = None.
Proof.
  intros H. unfold idx, len in *. destruct (Z.ltb_spec i 0); [done|].
  apply lookup_ge_None. lia.
Qed.

Lemma u8_range (bytes : Uint8Array) (i : Z) : 0 <= u8 bytes i < 256.
Proof. unfold u8. destruct (idx bytes i); [apply byte_to_Z_range | lia]. Qed.

Lemma u8_ge (bytes : Uint8Array) (i : Z) : len bytes <= i -> u8 bytes i = 0.
Proof. intros H. unfold u8. by rewrite idx_ge. Qed.

Lemma seq_lookup (v : option byte) (c : byte) :
  seq v (byte_to_Z c) = bool_decide (v = Some c).
Proof.
  destruct v as [b|]; simpl; [|done].
  destruct (Z.eqb_spec (byte_to_Z b) (byte_to_Z c)) as [E|E].
  - apply byte_to_Z_inj in E. subst. by rewrite bool_decide_eq_true_2.
  - rewrite bool_decide_eq_false_2; [done|]. intros [= ->]. done.
Qed.

Lemma charOf_eq (v : option byte) (c : byte) :
  c <> x00 -> charOf v = ascii_of_byte c <-> v = Some c.
Proof.
  intros Hc. split; [|by intros ->].
  destruct v as [b|]; simpl.
  - intros H. f_equal.
    rewrite <- (byte_of_ascii_of_byte b), <- (byte_of_ascii_of_byte c). by rewrite H.
  - intros H. exfalso. apply Hc.
    rewrite <- (byte_of_ascii_of_byte c), <- H. reflexivity.
Qed.

Lemma bytes_at_nil data o : bytes_at data o [] <-> True.
Proof. unfold bytes_at. simpl. by rewrite take_0. Qed.

Lemma bytes_at_cons data o c sig :
  bytes_at data o (c :: sig) <-> data !! o = Some c /\ bytes_at data (S o) sig.
Proof.
  unfold bytes_at. simpl length.
  destruct (data !! o) as [x|] eqn:E.
  - rewrite (drop_S _ _ _ E). simpl. split.
    + intros [= -> H]. done.
    + intros [[= ->] H]. by rewrite H.
  - rewrite drop_ge by (by apply lookup_ge_None). simpl. split; [done|].
    by intros [? _].
Qed.

Lemma seq_take12 (data : ArrayBuffer) (n : nat) (c : byte) (i z : Z) :
  i = Z.of_nat n -> z = byte_to_Z c -> (n < 12)%nat ->
  seq (idx (take 12 data) i) z = true <-> data !! n = Some c.
Proof.
  intros -> -> Hn. rewrite idx_nat, seq_lookup, bool_decide_eq_true.
  by rewrite lookup_take_lt.
Qed.

Lemma brand_take12 (data : ArrayBuffer) (c0 c1 c2 c3 : byte) (s : string) :
  s = string_of_list_ascii (map ascii_of_byte [c0; c1; c2; c3]) ->
  c0 <> x00 -> c1 <> x00 -> c2 <> x00 -> c3 <> x00 ->
  let bytes := take 12 data in
  String.eqb (fromCharCode [idx bytes 8; idx bytes 9; idx bytes 10; idx bytes 11]) s = true
  <-> bytes_at data 8 [c0; c1; c2; c3].
Proof.
  intros -> H0 H1 H2 H3 bytes. rewrite String.eqb_eq.
  rewrite !bytes_at_cons, bytes_at_nil.
  unfold fromCharCode, bytes. simpl.
  change 8 with (Z.of_nat 8). change 9 with (Z.of_nat 9).
  change 10 with (Z.of_nat 10). change 11 with (Z.of_nat 11).
  rewrite !idx_nat, !lookup_take_lt by lia.
  rewrite <- (charOf_eq (data !! 8%nat) c0 H0), <- (charOf_eq (data !! 9%nat) c1 H1),
          <- (charOf_eq (data !! 10%nat) c2 H2), <- (charOf_eq (data !! 11%nat) c3 H3).
  split; [intros [= -> -> -> ->]; done | intros (-> & -> & -> & -> & _); done].
Qed.

Lemma bool_eq_decide (b : bool) (P : Prop) `{Decision P} :
  (b = true <-> P) -> b = bool_decide P.
Proof.
  intros HP. destruct b.
  - symmetry. apply bool_decide_eq_true. by apply HP.
  - symmetry. apply bool_decide_eq_false. intros HP'. apply HP in HP'. done.
Qed.

Lemma jpegCheck_sig data : jpegCheck (take 12 data) = true <-> sigJPEG data.
Proof.
  unfold jpegCheck, sigJPEG. rewrite !andb_true_iff.
  rewrite (seq_take12 data 0 xff), (seq_take12 data 1 xd8), (seq_take12 data 2 xff)
    by (reflexivity || lia).
  rewrite !bytes_at_cons, bytes_at_nil. tauto.
Qed.

Lemma pngCheck_sig data : pngCheck (take 12 data) = true <-> sigPNG data.
Proof.
  unfold pngCheck, sigPNG. rewrite !andb_true_iff.
  rewrite (seq_take12 data 0 x89), (seq_take12 data 1 x50), (seq_take12 data 2 x4e),
    (seq_take12 data 3 x47) by (reflexivity || lia).
  rewrite !bytes_at_cons, bytes_at_nil. tauto.
Qed.

Lemma gifCheck_sig data : gifCheck (take 12 data) = true <-> sigGIF data.
Proof.
  unfold gifCheck, sigGIF. rewrite !andb_true_iff.
  rewrite (seq_take12 data 0 x47), (seq_take12 data 1 x49), (seq_take12 data 2 x46),
    (seq_take12 data 3 x38) by (reflexivity || lia).
  rewrite !bytes_at_cons, bytes_at_nil. tauto.
Qed.

Lemma webpCheck_sig data : webpCheck (take 12 data) = true <-> sigWEBP data.
Proof.
  unfold webpCheck, sigWEBP. rewrite !andb_true_iff.
  rewrite (seq_take12 data 0 x52), (seq_take12 data 1 x49), (seq_take12 data 2 x46),
    (seq_take12 data 3 x46), (seq_take12 data 8 x57), (seq_take12 data 9 x45),
    (seq_take12 data 10 x42), (seq_take12 data 11 x50) by (reflexivity || lia).
  rewrite !bytes_at_cons, !bytes_at_nil. tauto.
Qed.

Lemma avifCheck_sig data : avifCheck (take 12 data) = true <-> sigAVIF data.
Proof.
  unfold avifCheck, sigAVIF. cbv zeta. rewrite !andb_true_iff, orb_true_iff.
  rewrite (seq_take12 data 4 x66), (seq_take12 data 5 x74), (seq_take12 data 6 x79),
    (seq_take12 data 7 x70) by (reflexivity || lia).
  rewrite (brand_take12 data x61 x76 x69 x66) by done.
  rewrite (brand_take12 data x61 x76 x69 x73) by done.
  rewrite !(bytes_at_cons data 4), !(bytes_at_cons data 5), !(bytes_at_cons data 6),
    !(bytes_at_cons data 7), bytes_at_nil. tauto.
Qed.

Lemma detectFormat_firstMatch (data : ArrayBuffer) : detectFormat data = firstMatch data.
Proof.
  unfold detectFormat, firstMatch. cbv zeta.
  rewrite (bool_eq_decide _ _ (jpegCheck_sig data)), (bool_eq_decide _ _ (pngCheck_sig data)),
    (bool_eq_decide _ _ (gifCheck_sig data)), (bool_eq_decide _ _ (webpCheck_sig data)),
    (bool_eq_decide _ _ (avifCheck_sig data)).
  repeat case_bool_decide; repeat case_decide; done.
Qed.

Lemma bytes_at_take12 (data : ArrayBuffer) (o : nat) (sig : list byte) :
  (o + length sig <= 12)%nat -> bytes_at (take 12 data) o sig <-> bytes_at data o sig.
Proof.
  revert o. induction sig as [|c sig IH]; intros o Ho.
  - by rewrite !bytes_at_nil.
  - simpl in Ho. rewrite !bytes_at_cons, IH by lia.
    by rewrite lookup_take_lt by lia.
Qed.

Lemma bytes_at_length data o sig : bytes_at data o sig -> (length sig <= length data - o)%nat.
Proof.
  unfold bytes_at. intros H. apply (f_equal length) in H.
  rewrite length_take, length_drop in H. lia.
Qed.

Lemma lookup_pad (data : ArrayBuffer) (k n : nat) (c : byte) :
  c <> x00 -> (data ++ replicate k x00) !! n = Some c <-> data !! n = Some c.
Proof.
  intros Hc. destruct (decide (n < length data)%nat) as [Hn|Hn].
  - by rewrite lookup_app_l.
  - rewrite lookup_app_r by lia. rewrite (lookup_ge_None_2 data n) by lia.
    split; [|done]. intros H. apply lookup_replicate_1 in H as [-> _]. done.
Qed.

Lemma bytes_at_pad (data : ArrayBuffer) (k o : nat) (sig : list byte) :
  Forall (fun c => c <> x00) sig ->
  bytes_at (data ++ replicate k x00) o sig <-> bytes_at data o sig.
Proof.
  intros Hsig. revert o. induction Hsig as [|c sig Hc _ IH]; intros o.
  - by rewrite !bytes_at_nil.
  - by rewrite !bytes_at_cons, IH, lookup_pad.
Qed.

Ltac nonzero_sig := repeat constructor; discriminate.

Lemma sigJPEG_pad data k : sigJPEG (data ++ replicate k x00) <-> sigJPEG data.
Proof. apply bytes_at_pad. nonzero_sig. Qed.

Lemma sigPNG_pad data k : sigPNG (data ++ replicate k x00) <-> sigPNG data.
Proof. apply bytes_at_pad. nonzero_sig. Qed.

Lemma sigGIF_pad data k : sigGIF (data ++ replicate k x00) <-> sigGIF data.
Proof. apply bytes_at_pad. nonzero_sig. Qed.

Lemma sigWEBP_pad data k : sigWEBP (data ++ replicate k x00) <-> sigWEBP data.
Proof. unfold sigWEBP. rewrite !bytes_at_pad by nonzero_sig. done. Qed.

Lemma sigAVIF_pad data k : sigAVIF (data ++ replicate k x00) <-> sigAVIF data.
Proof. unfold sigAVIF. rewrite !bytes_at_pad by nonzero_sig. done. Qed.

Lemma firstMatch_pad (data : ArrayBuffer) (k : nat) :
  firstMatch (data ++ replicate k x00) = firstMatch data.
Proof.
  unfold firstMatch.
  rewrite (decide_ext _ _ _ _ (sigJPEG_pad data k)), (decide_ext _ _ _ _ (sigPNG_pad data k)),
    (decide_ext _ _ _ _ (sigGIF_pad data k)), (decide_ext _ _ _ _ (sigWEBP_pad data k)),
    (decide_ext _ _ _ _ (sigAVIF_pad data k)).
  done.
Qed.

Lemma firstMatch_short (data : ArrayBuffer) :
  (length data < 3)%nat -> firstMatch data = "unknown".
Proof.
  intros Hlen. unfold firstMatch, sigJPEG, sigPNG, sigGIF, sigWEBP, sigAVIF.
  repeat case_decide; try done;
    repeat match goal with
           | H : _ /\ _ |- _ => destruct H
           | H : bytes_at _ _ _ |- _ => apply bytes_at_length in H; simpl in H
           end; lia.
Qed.

Lemma firstMatch_lt12 (data : ArrayBuffer) :
  (length data < 12)%nat -> firstMatch data <> "webp" /\ firstMatch data <> "avif".
Proof.
  intros Hlen. unfold firstMatch, sigJPEG, sigPNG, sigGIF, sigWEBP, sigAVIF.
  repeat case_decide; try done;
    repeat match goal with
           | H : _ /\ _ |- _ => destruct H
           | H : _ \/ _ |- _ => destruct H
           | H : bytes_at _ _ _ |- _ => apply bytes_at_length in H; simpl in H
           end; lia.
Qed.

(** ** Format detection *)

(** C3.  [detectFormat] returns the tag of the first signature rule that
    matches, taken in the order JPEG, PNG, GIF, WebP, AVIF, and "unknown"
    when none does; its result is the one it gives on the first 12 bytes of
    the buffer alone. *)
Theorem detectFormat_first_rule (data : ArrayBuffer) :
  detectFormat data = firstMatch data
  /\ detectFormat (take 12 data) = detectFormat data.
Proof.
  split; [apply detectFormat_firstMatch|].
  unfold detectFormat. cbv zeta. rewrite take_take. done.
Qed.

Lemma detectFormat_prefix (data data' : ArrayBuffer) :
  take 12 data = take 12 data' -> detectFormat data = detectFormat data'.
Proof. unfold detectFormat. by intros ->. Qed.

(** C5, as the code has it.  An out-of-range read matches no signature
    byte, exactly like a byte of value 0: a buffer is classified like the
    same buffer padded with zero bytes.  So a buffer shorter than 3 bytes is
    "unknown" and one shorter than 12 bytes is never "webp" or "avif"; a
    short buffer that carries a whole JPEG, PNG or GIF signature is still
    detected. *)
Theorem detectFormat_short_buffers (data : ArrayBuffer) (k : nat) :
  detectFormat (data ++ replicate k x00) = detectFormat data
  /\ ((length data < 3)%nat -> detectFormat data = "unknown")
  /\ ((length data < 12)%nat ->
      detectFormat data <> "webp" /\ detectFormat data <> "avif").
Proof.
  rewrite !detectFormat_firstMatch. split; [apply firstMatch_pad|].
  split; [apply firstMatch_short | apply firstMatch_lt12].
Qed.

Lemma detectFormat_short_buffers_witness :
  detectFormat ([x47; x49] ++ replicate 10 x00) = detectFormat [x47; x49]
  /\ detectFormat [x47; x49] = "unknown"
  /\ detectFormat [x47; x49] <> "webp" /\ detectFormat [x47; x49] <> "avif".
Proof.
  destruct (detectFormat_short_buffers [x47; x49] 10) as (Hpad & Hshort & Hlt).
  split; [exact Hpad|]. split; [apply Hshort; simpl; lia | apply Hlt; simpl; lia].
Defined.

(** C5, as stated, fails: the three bytes FF D8 FF are a buffer of length
    at most 12 and are detected as "jpeg". *)
Lemma detectFormat_short_not_always_unknown :
  ~ (forall data : ArrayBuffer, (length data <= 12)%nat -> detectFormat data = "unknown").
Proof.
  intros H. specialize (H [xff; xd8; xff]). simpl in H.
  assert (Hlen : (3 <= 12)%nat) by lia. specialize (H Hlen). discriminate H.
Qed.

(** ** Exclusivity of the signature tests *)

Lemma seq_excl (v : option byte) (c1 c2 : Z) :
  c1 <> c2 -> seq v c1 = true -> seq v c2 = true -> False.
Proof.
  destruct v as [b|]; simpl; [|done].
  intros Hne H1%Z.eqb_eq H2%Z.eqb_eq. congruence.
Qed.

Lemma jpegCheck_b0 bytes : jpegCheck bytes = true -> seq (idx bytes 0) 0xFF = true.
Proof. unfold jpegCheck. rewrite !andb_true_iff. tauto. Qed.

Lemma pngCheck_b0 bytes : pngCheck bytes = true -> seq (idx bytes 0) 0x89 = true.
Proof. unfold pngCheck. rewrite !andb_true_iff. tauto. Qed.

Lemma gifCheck_b0 bytes : gifCheck bytes = true -> seq (idx bytes 0) 0x47 = true.
Proof. unfold gifCheck. rewrite !andb_true_iff. tauto. Qed.

Lemma webpCheck_b0 bytes : webpCheck bytes = true -> seq (idx bytes 0) 0x52 = true.
Proof. unfold webpCheck. rewrite !andb_true_iff. tauto. Qed.

Lemma webp_avif_excl bytes : webpCheck bytes = true -> avifCheck bytes = true -> False.
Proof.
  unfold webpCheck, avifCheck. cbv zeta.
  rewrite !andb_true_iff, orb_true_iff, !String.eqb_eq.
  intros (((((((_ & _) & _) & _) & H8) & _) & _) & _) (_ & Hbrand).
  change 0x57 with (byte_to_Z x57) in H8.
  rewrite seq_lookup, bool_decide_eq_true in H8. rewrite H8 in Hbrand.
  destruct Hbrand as [Hb|Hb]; discriminate Hb.
Qed.

Lemma first_byte_excl bytes :
  atMostOne [jpegCheck bytes; pngCheck bytes; gifCheck bytes; webpCheck bytes].
Proof.
  pose proof (jpegCheck_b0 bytes) as HJ. pose proof (pngCheck_b0 bytes) as HP.
  pose proof (gifCheck_b0 bytes) as HG. pose proof (webpCheck_b0 bytes) as HW.
  unfold atMostOne.
  destruct (jpegCheck bytes), (pngCheck bytes), (gifCheck bytes), (webpCheck bytes);
    simpl; try lia; exfalso;
    repeat match goal with H : true = true -> _ |- _ => specialize (H eq_refl) end;
    match goal with
    | H1 : seq ?v ?a = true, H2 : seq ?v ?b = true |- _ =>
        apply (seq_excl v a b); [lia | exact H1 | exact H2]
    end.
Qed.

(** C6, as the code has it.  At most one of the JPEG, PNG, GIF and WebP
    tests holds (their first bytes differ), and the WebP and AVIF tests
    never hold together (bytes 8 to 11 differ).  The AVIF test looks at
    bytes 4 to 11 only and is compatible with the JPEG, PNG and GIF ones;
    on such a buffer the earlier rule decides the result. *)
Theorem signature_checks_exclusive (data : ArrayBuffer) :
  let bytes := take 12 data in
  atMostOne [jpegCheck bytes; pngCheck bytes; gifCheck bytes; webpCheck bytes]
  /\ atMostOne [webpCheck bytes; avifCheck bytes]
  /\ (avifCheck bytes = true -> detectFormat data = "avif" \/
        jpegCheck bytes = true \/ pngCheck bytes = true \/ gifCheck bytes = true).
Proof.
  intros bytes. split; [apply first_byte_excl|]. split.
  - pose proof (webp_avif_excl bytes) as H. unfold atMostOne.
    destruct (webpCheck bytes), (avifCheck bytes); simpl;
      first [lia | exfalso; by apply H].
  - intros HA. pose proof (webp_avif_excl bytes) as H.
    unfold detectFormat. fold bytes. rewrite HA.
    destruct (jpegCheck bytes); [tauto|]. destruct (pngCheck bytes); [tauto|].
    destruct (gifCheck bytes); [tauto|].
    destruct (webpCheck bytes); [exfalso; by apply H | by left].
Qed.

Lemma signature_checks_exclusive_witness :
  let bytes := take 12 jpeg_and_avif in
  atMostOne [jpegCheck bytes; pngCheck bytes; gifCheck bytes; webpCheck bytes]
  /\ atMostOne [webpCheck bytes; avifCheck bytes]
  /\ (detectFormat jpeg_and_avif = "avif" \/
        jpegCheck bytes = true \/ pngCheck bytes = true \/ gifCheck bytes = true).
Proof.
  intros bytes.
  destruct (signature_checks_exclusive jpeg_and_avif) as (H1 & H2 & H3).
  split; [exact H1|]. split; [exact H2|]. apply H3. reflexivity.
Defined.

(** C6, as stated, fails: on FF D8 FF 00 "ftyp" "avif" both the JPEG and the
    AVIF test hold. *)
Lemma signature_checks_not_exclusive :
  ~ (forall data : ArrayBuffer, atMostOne (signatureChecks data)).
Proof.
  intros H. specialize (H jpeg_and_avif).
  unfold atMostOne in H. vm_compute in H. lia.
Qed.

(** ** Arithmetic of the shift-and-or compositions *)

Lemma ToInt32_id (z : Z) : - 2 ^ 31 <= z < 2 ^ 31 -> JS.ToInt32 z = z.
Proof. intros H. unfold JS.ToInt32. rewrite Z.mod_small; lia. Qed.

Lemma ToInt32_range (z : Z) : - 2 ^ 31 <= JS.ToInt32 z < 2 ^ 31.
Proof. unfold JS.ToInt32. pose proof (Z.mod_pos_bound (z + 2 ^ 31) (2 ^ 32)). lia. Qed.

Lemma ToInt32_hi (z : Z) : 2 ^ 31 <= z < 2 ^ 32 -> JS.ToInt32 z = z - 2 ^ 32.
Proof.
  intros H. unfold JS.ToInt32.
  replace (z + 2 ^ 31) with ((z - 2 ^ 31) + 1 * 2 ^ 32) by lia.
  rewrite Z.mod_add by lia. rewrite Z.mod_small by lia. lia.
Qed.

(** Or-ing a multiple of [2^n] with a value below [2^n] adds them. *)
Lemma lor_disjoint (k b n : Z) :
  0 <= n -> 0 <= b < 2 ^ n -> Z.lor (k * 2 ^ n) b = k * 2 ^ n + b.
Proof.
  intros Hn Hb. rewrite <- Z.shiftl_mul_pow2 by done.
  assert (Hland : Z.land (Z.shiftl k n) b = 0).
  { apply Z.bits_inj'. intros i Hi. rewrite Z.land_spec, Z.bits_0.
    destruct (Z.lt_ge_cases i n) as [Hlt|Hge].
    - by rewrite Z.shiftl_spec_low.
    - destruct (Z.eq_dec b 0) as [->|Hb0]; [by rewrite Z.bits_0, andb_false_r|].
      rewrite (Z.bits_above_log2 b i), andb_false_r; [done|lia|].
      apply Z.lt_le_trans with n; [|done]. apply Z.log2_lt_pow2; lia. }
  rewrite <- Z.lxor_lor by done. symmetry. by apply Z.add_nocarry_lxor.
Qed.

Lemma shl_val (a n : Z) :
  0 <= n < 32 -> - 2 ^ 31 <= a < 2 ^ 31 -> JS.shl a n = JS.ToInt32 (a * 2 ^ n).
Proof.
  intros Hn Ha. unfold JS.shl. rewrite (ToInt32_id a) by done.
  rewrite (Z.mod_small n 32) by lia. by rewrite Z.shiftl_mul_pow2 by lia.
Qed.

Lemma shl_small (a n : Z) :
  0 <= n < 32 -> 0 <= a -> a * 2 ^ n < 2 ^ 31 -> JS.shl a n = a * 2 ^ n.
Proof.
  intros Hn Ha Hlt.
  assert (a < 2 ^ 31).
  { assert (1 <= 2 ^ n) by (apply (Z.pow_le_mono_r 2 0 n); lia). nia. }
  rewrite shl_val by lia. apply ToInt32_id. nia.
Qed.

Lemma bor_val (a b : Z) :
  - 2 ^ 31 <= a < 2 ^ 31 -> - 2 ^ 31 <= b < 2 ^ 31 -> JS.bor a b = Z.lor a b.
Proof. intros Ha Hb. unfold JS.bor. by rewrite !ToInt32_id. Qed.

Section ByteComposition.
Variables a b c d : Z.
Hypothesis Ha : 0 <= a < 256.
Hypothesis Hb : 0 <= b < 256.
Hypothesis Hc : 0 <= c < 256.
Hypothesis Hd : 0 <= d < 256.

Lemma bor_le16 : a .| (b << 8) = a + b * 2 ^ 8.
Proof.
  rewrite shl_small by lia. rewrite bor_val by lia.
  rewrite Z.lor_comm, lor_disjoint; lia.
Qed.

Lemma bor_be16 : (a << 8) .| b = a * 2 ^ 8 + b.
Proof.
  rewrite shl_small by lia. rewrite bor_val by lia.
  rewrite lor_disjoint; lia.
Qed.

Lemma bor_le24 : a .| (b << 8) .| (c << 16) = a + b * 2 ^ 8 + c * 2 ^ 16.
Proof.
  rewrite bor_le16. rewrite (shl_small c) by lia. rewrite bor_val by lia.
  rewrite Z.lor_comm, lor_disjoint; lia.
Qed.

Lemma bor_be32 :
  (a << 24) .| (b << 16) .| (c << 8) .| d
  = JS.ToInt32 (a * 2 ^ 24 + b * 2 ^ 16 + c * 2 ^ 8 + d).
Proof.
  rewrite (shl_val a) by lia. rewrite (shl_small b), (shl_small c) by lia.
  assert (Hk : exists k, JS.ToInt32 (a * 2 ^ 24) = k * 2 ^ 24
                         /\ JS.ToInt32 (a * 2 ^ 24 + b * 2 ^ 16 + c * 2 ^ 8 + d)
                            = k * 2 ^ 24 + b * 2 ^ 16 + c * 2 ^ 8 + d
                         /\ -128 <= k < 128).
  { destruct (Z.lt_ge_cases a 128).
    - exists a. rewrite !ToInt32_id by lia. lia.
    - exists (a - 256). rewrite !ToInt32_hi by lia. lia. }
  destruct Hk as (k & -> & -> & Hk).
  rewrite (bor_val (k * 2 ^ 24)) by lia. rewrite lor_disjoint by lia.
  rewrite (bor_val (k * 2 ^ 24 + b * 2 ^ 16)) by lia.
  replace (k * 2 ^ 24 + b * 2 ^ 16) with ((k * 2 ^ 8 + b) * 2 ^ 16) by lia.
  rewrite lor_disjoint by lia.
  rewrite bor_val by lia.
  replace ((k * 2 ^ 8 + b) * 2 ^ 16 + c * 2 ^ 8)
    with ((k * 2 ^ 16 + b * 2 ^ 8 + c) * 2 ^ 8) by lia.
  rewrite lor_disjoint by lia. lia.
Qed.

(** The composition is negative exactly when the top bit of the first
    byte is set. *)
Lemma bor_be32_sign :
  (a << 24) .| (b << 16) .| (c << 8) .| d < 0 <-> 128 <= a.
Proof.
  rewrite bor_be32. destruct (Z.lt_ge_cases a 128).
  - rewrite ToInt32_id by lia. lia.
  - rewrite ToInt32_hi by lia. lia.
Qed.
End ByteComposition.

Lemma le16_val bytes o : le16 bytes o = LE16 bytes o.
Proof.
  unfold le16, LE16. rewrite bor_le16 by apply u8_range. lia.
Qed.

Lemma le24_val bytes o : le24 bytes o = LE24 bytes o.
Proof.
  unfold le24, LE24. rewrite bor_le24 by apply u8_range. lia.
Qed.

Lemma be16_val bytes o : be16 bytes o = u8 bytes o * 2 ^ 8 + u8 bytes (o + 1).
Proof. unfold be16. by rewrite bor_be16 by apply u8_range. Qed.

Lemma be32_val bytes o :
  be32 bytes o = JS.ToInt32 (u8 bytes o * 2 ^ 24 + u8 bytes (o + 1) * 2 ^ 16
                             + u8 bytes (o + 2) * 2 ^ 8 + u8 bytes (o + 3)).
Proof. unfold be32. by rewrite bor_be32 by apply u8_range. Qed.

Lemma lor_bound (a b n : Z) :
  0 <= n -> 0 <= a < 2 ^ n -> 0 <= b < 2 ^ n -> 0 <= Z.lor a b < 2 ^ n.
Proof.
  intros Hn Ha Hb.
  assert (H0 : 0 <= Z.lor a b) by (apply Z.lor_nonneg; lia).
  split; [done|].
  destruct (Z.eq_dec a 0) as [->|Ha0]; [rewrite Z.lor_0_l; lia|].
  destruct (Z.eq_dec (Z.lor a b) 0) as [->|Hl0]; [lia|].
  apply Z.log2_lt_pow2; [lia|]. rewrite Z.log2_lor by lia.
  destruct (Z.eq_dec b 0) as [->|Hb0].
  - rewrite Z.max_l by (apply Z.log2_nonneg). apply Z.log2_lt_pow2; lia.
  - apply Z.max_lub_lt; apply Z.log2_lt_pow2; lia.
Qed.

Lemma band_val (a m : Z) :
  - 2 ^ 31 <= a < 2 ^ 31 -> - 2 ^ 31 <= m < 2 ^ 31 -> JS.band a m = Z.land a m.
Proof. intros Ha Hm. unfold JS.band. by rewrite !ToInt32_id. Qed.

Lemma sar_val (a n : Z) :
  0 <= n < 32 -> - 2 ^ 31 <= a < 2 ^ 31 -> JS.sar a n = Z.shiftr a n.
Proof.
  intros Hn Ha. unfold JS.sar. by rewrite ToInt32_id, Z.mod_small by lia.
Qed.

Lemma tag_check (bytes : Uint8Array) (c0 c1 c2 c3 : byte) :
  seq (idx bytes 12) (byte_to_Z c0) && seq (idx bytes 13) (byte_to_Z c1)
  && seq (idx bytes 14) (byte_to_Z c2) && seq (idx bytes 15) (byte_to_Z c3) = true
  <-> chunkTag bytes [c0; c1; c2; c3].
Proof.
  unfold chunkTag. rewrite !andb_true_iff, !seq_lookup, !bool_decide_eq_true.
  change 12 with (Z.of_nat 12). change 13 with (Z.of_nat 13).
  change 14 with (Z.of_nat 14). change 15 with (Z.of_nat 15).
  rewrite !idx_nat, !bytes_at_cons, bytes_at_nil. tauto.
Qed.

Section Vp8lFields.
Variables b0 b1 b2 b3 : Z.
Hypothesis H0 : 0 <= b0 < 256.
Hypothesis H1 : 0 <= b1 < 256.
Hypothesis H2 : 0 <= b2 < 256.
Hypothesis H3 : 0 <= b3 < 256.

Lemma vp8l_width_val :
  (b0 .| (b1 << 8)) .& 0x3FFF = Z.land (Z.lor b0 (Z.shiftl b1 8)) 0x3FFF.
Proof.
  rewrite shl_small by lia. rewrite Z.shiftl_mul_pow2 by lia.
  rewrite bor_val by lia.
  pose proof (lor_bound b0 (b1 * 2 ^ 8) 16). rewrite band_val; lia.
Qed.

Lemma vp8l_height_val :
  ((b1 >> 6) .| (b2 << 2) .| (b3 << 10)) .& 0x3FFF
  = Z.land (Z.lor (Z.lor (Z.shiftr b1 6) (Z.shiftl b2 2)) (Z.shiftl b3 10)) 0x3FFF.
Proof.
  rewrite sar_val by lia. rewrite !shl_small by lia.
  rewrite !Z.shiftl_mul_pow2 by lia.
  assert (Hs : 0 <= Z.shiftr b1 6 < 2 ^ 18).
  { rewrite Z.shiftr_div_pow2 by lia. split; [apply Z.div_pos; lia|].
    apply Z.div_lt_upper_bound; lia. }
  pose proof (lor_bound (Z.shiftr b1 6) (b2 * 2 ^ 2) 18) as Hl1.
  rewrite (bor_val (Z.shiftr b1 6)) by lia.
  pose proof (lor_bound (Z.lor (Z.shiftr b1 6) (b2 * 2 ^ 2)) (b3 * 2 ^ 10) 18) as Hl2.
  rewrite bor_val by lia. rewrite band_val; lia.
Qed.
End Vp8lFields.

Lemma land_mask_val (x : Z) : 0 <= x < 2 ^ 16 -> x .& 0x3FFF = Z.land x 0x3FFF.
Proof. intros H. apply band_val; lia. Qed.

Lemma LE16_range bytes o : 0 <= LE16 bytes o < 2 ^ 16.
Proof.
  unfold LE16. pose proof (u8_range bytes o). pose proof (u8_range bytes (o + 1)). lia.
Qed.

(** ** WebP *)

Lemma tagX (bytes : Uint8Array) :
  seq (idx bytes 12) 0x56 && seq (idx bytes 13) 0x50 && seq (idx bytes 14) 0x38
  && seq (idx bytes 15) 0x58 = bool_decide (chunkTag bytes VP8X).
Proof. apply bool_eq_decide, (tag_check bytes x56 x50 x38 x58). Qed.

Lemma tagL (bytes : Uint8Array) :
  seq (idx bytes 12) 0x56 && seq (idx bytes 13) 0x50 && seq (idx bytes 14) 0x38
  && seq (idx bytes 15) 0x4C = bool_decide (chunkTag bytes VP8L).
Proof. apply bool_eq_decide, (tag_check bytes x56 x50 x38 x4c). Qed.

Lemma tagS (bytes : Uint8Array) :
  seq (idx bytes 12) 0x56 && seq (idx bytes 13) 0x50 && seq (idx bytes 14) 0x38
  && seq (idx bytes 15) 0x20 = bool_decide (chunkTag bytes VP8_).
Proof. apply bool_eq_decide, (tag_check bytes x56 x50 x38 x20). Qed.

Lemma chunkTag_unique (bytes : Uint8Array) (t1 t2 : list byte) :
  length t1 = length t2 -> chunkTag bytes t1 -> chunkTag bytes t2 -> t1 = t2.
Proof.
  unfold chunkTag, bytes_at. intros Hlen H1 H2.
  rewrite <- H1, <- H2. by rewrite Hlen.
Qed.

(** The dispatch with the three tests replaced by the tags they test. *)
Lemma getWebpDimensions_tags (bytes : Uint8Array) :
  getWebpDimensions bytes =
  if bool_decide (chunkTag bytes VP8X) then
    {| width := LE24 bytes 24 + 1; height := LE24 bytes 27 + 1 |}
  else if bool_decide (chunkTag bytes VP8L) then
    {| width := Z.land (Z.lor (u8 bytes 21) (Z.shiftl (u8 bytes 22) 8)) 0x3FFF + 1;
       height := Z.land (Z.lor (Z.lor (Z.shiftr (u8 bytes 22) 6) (Z.shiftl (u8 bytes 23) 2))
                               (Z.shiftl (u8 bytes 24) 10)) 0x3FFF + 1 |}
  else if bool_decide (chunkTag bytes VP8_) then
    {| width := Z.land (LE16 bytes 26) 0x3FFF; height := Z.land (LE16 bytes 28) 0x3FFF |}
  else fallback.
Proof.
  unfold getWebpDimensions. rewrite tagX, tagL, tagS. cbv zeta.
  rewrite !le24_val, !le16_val.
  rewrite vp8l_width_val, vp8l_height_val by apply u8_range.
  rewrite (land_mask_val (LE16 bytes 26)), (land_mask_val (LE16 bytes 28))
    by apply LE16_range.
  reflexivity.
Qed.

(** C9.  [getWebpDimensions] dispatches on the chunk tag at offset 12:
    "VP8X" gives the 24-bit little-endian values at 24 and 27, each plus 1;
    "VP8L" gives the two packed 14-bit fields of the bytes at 21..24, each
    plus 1; "VP8 " gives the 16-bit little-endian values at 26 and 28 masked
    with 0x3FFF; any other tag gives (1920, 1080).  The VP8L sample packed
    for 100 x 50 reads back as (100, 50). *)
Theorem getWebpDimensions_dispatch (bytes : Uint8Array) :
  (chunkTag bytes VP8X ->
     getWebpDimensions bytes
     = {| width := LE24 bytes 24 + 1; height := LE24 bytes 27 + 1 |})
  /\ (chunkTag bytes VP8L ->
     let b0 := u8 bytes 21 in
     let b1 := u8 bytes 22 in
     let b2 := u8 bytes 23 in
     let b3 := u8 bytes 24 in
     getWebpDimensions bytes
     = {| width := Z.land (Z.lor b0 (Z.shiftl b1 8)) 0x3FFF + 1;
          height := Z.land (Z.lor (Z.lor (Z.shiftr b1 6) (Z.shiftl b2 2))
                                  (Z.shiftl b3 10)) 0x3FFF + 1 |})
  /\ (chunkTag bytes VP8_ ->
     getWebpDimensions bytes
     = {| width := Z.land (LE16 bytes 26) 0x3FFF;
          height := Z.land (LE16 bytes 28) 0x3FFF |})
  /\ (~ chunkTag bytes VP8X -> ~ chunkTag bytes VP8L -> ~ chunkTag bytes VP8_ ->
     getWebpDimensions bytes = fallback)
  /\ getWebpDimensions vp8l_100x50 = {| width := 100; height := 50 |}.
Proof.
  rewrite getWebpDimensions_tags.
  repeat split.
  - intros HX. by rewrite bool_decide_eq_true_2.
  - intros HL. cbv zeta.
    rewrite (bool_decide_eq_false_2 (chunkTag bytes VP8X)).
    + by rewrite bool_decide_eq_true_2.
    + intros HX. by pose proof (chunkTag_unique bytes VP8X VP8L eq_refl HX HL).
  - intros HS.
    rewrite (bool_decide_eq_false_2 (chunkTag bytes VP8X)).
    + rewrite (bool_decide_eq_false_2 (chunkTag bytes VP8L)).
      * by rewrite bool_decide_eq_true_2.
      * intros HL. by pose proof (chunkTag_unique bytes VP8L VP8_ eq_refl HL HS).
    + intros HX. by pose proof (chunkTag_unique bytes VP8X VP8_ eq_refl HX HS).
  - intros HX HL HS. by rewrite !bool_decide_eq_false_2.
Qed.

Lemma getWebpDimensions_dispatch_witness :
  getWebpDimensions vp8l_100x50
  = {| width := Z.land (Z.lor 0x63 (Z.shiftl 0x40 8)) 0x3FFF + 1;
       height := Z.land (Z.lor (Z.lor (Z.shiftr 0x40 6) (Z.shiftl 0x0C 2))
                               (Z.shiftl 0 10)) 0x3FFF + 1 |}.
Proof.
  destruct (getWebpDimensions_dispatch vp8l_100x50) as (_ & HL & _).
  apply HL. reflexivity.
Defined.

(** ** JPEG *)

Lemma sne_u8 (bytes : Uint8Array) (i : Z) :
  sne (idx bytes i) 0xFF = negb (bool_decide (u8 bytes i = 0xFF)).
Proof.
  unfold sne, seq, u8. f_equal. destruct (idx bytes i) as [b|].
  - apply bool_eq_decide. apply Z.eqb_eq.
  - by rewrite bool_decide_eq_false_2.
Qed.

Lemma isSOF_u8 (bytes : Uint8Array) (i : Z) :
  isSOF (idx bytes i) = bool_decide (sofMarker (u8 bytes i)).
Proof.
  apply bool_eq_decide. unfold isSOF, sofMarker, geq, leq, sne, seq, u8.
  destruct (idx bytes i) as [b|]; [|simpl; split; [done|lia]].
  rewrite !andb_true_iff, !negb_true_iff, !Z.leb_le, !Z.eqb_neq. tauto.
Qed.

Lemma BE16_val (bytes : Uint8Array) (o : Z) : be16 bytes o = BE16 bytes o.
Proof. rewrite be16_val. unfold BE16. lia. Qed.

Lemma BE16_range (bytes : Uint8Array) (o : Z) : 0 <= BE16 bytes o < 2 ^ 16.
Proof.
  unfold BE16. pose proof (u8_range bytes o). pose proof (u8_range bytes (o + 1)). lia.
Qed.

(** One round of the scan, in terms of byte values. *)
Lemma jpegBody_spec (bytes : Uint8Array) (i : Z) :
  jpegBody bytes i =
  if bool_decide (u8 bytes i = 0xFF) then
    if bool_decide (sofMarker (u8 bytes (i + 1))) then
      Return {| width := BE16 bytes (i + 7); height := BE16 bytes (i + 5) |}
    else Next (i + (2 + BE16 bytes (i + 2)))
  else Next (i + 1).
Proof.
  unfold jpegBody. cbv zeta. rewrite sne_u8, isSOF_u8, !BE16_val.
  by destruct (bool_decide (u8 bytes i = 0xFF)).
Qed.

(** The scan ends within [len bytes - i] rounds and follows [JpegScan]. *)
Lemma jpegLoop_scan (bytes : Uint8Array) (fuel : nat) (i : Z) :
  len bytes - i <= Z.of_nat fuel ->
  exists d, jpegLoop fuel bytes i = Some d /\ JpegScan bytes i d.
Proof.
  revert i. induction fuel as [|fuel IH]; intros i Hfuel.
  - exists fallback. simpl. destruct (Z.ltb_spec i (len bytes)); [lia|].
    split; [done|]. by constructor.
  - simpl. destruct (Z.ltb_spec i (len bytes)) as [Hlt|Hge].
    2:{ exists fallback. split; [done|]. by constructor. }
    rewrite jpegBody_spec.
    case_bool_decide as HFF; [case_bool_decide as HSOF|].
    + eexists. split; [done|]. by apply scan_sof.
    + pose proof (BE16_range bytes (i + 2)).
      destruct (IH (i + (2 + BE16 bytes (i + 2)))) as (d & Hd & Hs); [lia|].
      exists d. split; [done|]. by apply scan_skip.
    + destruct (IH (i + 1)) as (d & Hd & Hs); [lia|].
      exists d. split; [done|]. by apply scan_fill.
Qed.

Lemma JpegScan_functional (bytes : Uint8Array) (i : Z) (d d' : Dimensions) :
  JpegScan bytes i d -> JpegScan bytes i d' -> d = d'.
Proof.
  intros H. revert d'. induction H; intros d' H'; inversion H'; subst;
    try done; try lia; auto.
Qed.

Lemma jpegLoop_no_sof (bytes : Uint8Array) (fuel : nat) (i : Z) :
  (forall j, i <= j -> u8 bytes j = 0xFF -> ~ sofMarker (u8 bytes (j + 1))) ->
  len bytes - i <= Z.of_nat fuel ->
  jpegLoop fuel bytes i = Some fallback.
Proof.
  revert i. induction fuel as [|fuel IH]; intros i Hno Hfuel; simpl;
    destruct (Z.ltb_spec i (len bytes)) as [Hlt|Hge]; try done; try lia.
  rewrite jpegBody_spec.
  case_bool_decide as HFF; [case_bool_decide as HSOF|].
  - exfalso. by apply (Hno i).
  - pose proof (BE16_range bytes (i + 2)). apply IH; [|lia].
    intros j Hj. apply Hno. lia.
  - apply IH; [|lia]. intros j Hj. apply Hno. lia.
Qed.

Lemma jpegLoop_mono (bytes : Uint8Array) (fuel fuel' : nat) (i : Z) (d : Dimensions) :
  jpegLoop fuel bytes i = Some d -> (fuel <= fuel')%nat -> jpegLoop fuel' bytes i = Some d.
Proof.
  revert fuel' i. induction fuel as [|fuel IH]; intros fuel' i H Hle.
  - destruct fuel'; simpl in *; destruct (i <? len bytes); done.
  - destruct fuel' as [|fuel']; [lia|]. simpl in *.
    destruct (i <? len bytes); [|done].
    destruct (jpegBody bytes i); [|done..]. apply IH; [done|lia].
Qed.

(** C7.  With fuel for [length bytes] rounds the scan of [getJpegDimensions]
    returns, and what it returns is what [JpegScan] describes from offset 2:
    one byte forward on a byte other than 0xFF; at 0xFF followed by a
    Start-Of-Frame marker, height and width from the big-endian 16-bit
    values at +5 and +7; at 0xFF followed by anything else, forward by
    2 + the big-endian 16-bit length at +2; (1920, 1080) at the end of the
    buffer.  A buffer without any 0xFF followed by a Start-Of-Frame marker
    gives (1920, 1080); APP0 followed by SOF0 for 800 x 600 gives (800, 600). *)
Theorem getJpegDimensions_scan (bytes : Uint8Array) (fuel : nat) :
  (length bytes <= fuel)%nat ->
  (exists d, getJpegDimensions fuel bytes = Some d
             /\ JpegScan bytes 2 d
             /\ forall d', JpegScan bytes 2 d' -> d' = d)
  /\ ((forall j, 2 <= j -> u8 bytes j = 0xFF -> ~ sofMarker (u8 bytes (j + 1))) ->
      getJpegDimensions fuel bytes = Some fallback)
  /\ (forall n, (2 <= n)%nat ->
      getJpegDimensions n jpeg_app0_sof0 = Some {| width := 800; height := 600 |}
      /\ getJpegDimensions n jpeg_no_sof = Some fallback).
Proof.
  intros Hfuel. unfold getJpegDimensions. repeat split.
  - destruct (jpegLoop_scan bytes fuel 2) as (d & Hd & Hs); [unfold len; lia|].
    exists d. repeat split; [done..|].
    intros d' Hs'. by apply (JpegScan_functional bytes 2).
  - intros Hno. apply jpegLoop_no_sof; [done | unfold len; lia].
  - by apply (jpegLoop_mono _ 2).
  - by apply (jpegLoop_mono _ 2).
Qed.

Lemma jpeg_no_sof_markers (j : Z) :
  2 <= j -> u8 jpeg_no_sof j = 0xFF -> ~ sofMarker (u8 jpeg_no_sof (j + 1)).
Proof.
  intros Hj HFF.
  destruct (Z.le_gt_cases (len jpeg_no_sof) j) as [Hge|Hlt].
  { rewrite u8_ge in HFF by done. discriminate HFF. }
  change (len jpeg_no_sof) with 22 in Hlt.
  assert (Hcases : j = 2 \/ j = 20 \/ (j <> 2 /\ j <> 20)) by lia.
  destruct Hcases as [->|[->|[H2 H20]]].
  - replace (u8 jpeg_no_sof (2 + 1)) with 0xE0 by reflexivity. unfold sofMarker. lia.
  - replace (u8 jpeg_no_sof (20 + 1)) with 0xD9 by reflexivity. unfold sofMarker. lia.
  - exfalso.
    assert (Hj' : j = 3 \/ j = 4 \/ j = 5 \/ j = 6 \/ j = 7 \/ j = 8 \/ j = 9 \/ j = 10
                  \/ j = 11 \/ j = 12 \/ j = 13 \/ j = 14 \/ j = 15 \/ j = 16 \/ j = 17
                  \/ j = 18 \/ j = 19 \/ j = 21) by lia.
    repeat (destruct Hj' as [->|Hj']; [discriminate HFF|]).
    subst j. discriminate HFF.
Qed.

Lemma getJpegDimensions_scan_witness :
  (exists d, getJpegDimensions 39 jpeg_app0_sof0 = Some d
             /\ JpegScan jpeg_app0_sof0 2 d
             /\ forall d', JpegScan jpeg_app0_sof0 2 d' -> d' = d)
  /\ getJpegDimensions 22 jpeg_no_sof = Some fallback.
Proof.
  split.
  - refine (proj1 (getJpegDimensions_scan jpeg_app0_sof0 39 _)). simpl. lia.
  - refine (proj1 (proj2 (getJpegDimensions_scan jpeg_no_sof 22 _)) jpeg_no_sof_markers).
    simpl. lia.
Defined.

(** ** AVIF *)

Lemma BE32_val (bytes : Uint8Array) (o : Z) : be32 bytes o = BE32 bytes o.
Proof. rewrite be32_val. unfold BE32. f_equal. lia. Qed.

Lemma boxType_eqb (bytes : Uint8Array) (o : Z) (c0 c1 c2 c3 : byte) (s : string) :
  s = string_of_list_ascii (map ascii_of_byte [c0; c1; c2; c3]) ->
  c0 <> x00 -> c1 <> x00 -> c2 <> x00 -> c3 <> x00 ->
  String.eqb (fromCharCode [idx bytes (o + 4); idx bytes (o + 5);
                            idx bytes (o + 6); idx bytes (o + 7)]) s
  = bool_decide (typeAt bytes o [c0; c1; c2; c3]).
Proof.
  intros -> H0 H1 H2 H3. apply bool_eq_decide. rewrite String.eqb_eq.
  unfold fromCharCode, typeAt. simpl.
  split.
  - intros [= E0 E1 E2 E3]. apply charOf_eq in E0, E1, E2, E3; [|done..]. congruence.
  - intros [= -> -> -> ->]. done.
Qed.

(** One round of the walk, in terms of box sizes and types. *)
Lemma avifBody_spec (bytes : Uint8Array) (o : Z) :
  avifBody bytes o =
  if bool_decide (BE32 bytes o = 0) then Break
  else if bool_decide (typeAt bytes o ispe) then
    Return {| width := BE32 bytes (o + 12); height := BE32 bytes (o + 16) |}
  else if bool_decide (typeAt bytes o meta) then Next (o + 12)
  else if bool_decide (typeAt bytes o iprp \/ typeAt bytes o ipco) then Next (o + 8)
  else Next (o + BE32 bytes o).
Proof.
  unfold avifBody, includes. cbv zeta. cbn [existsb].
  rewrite !BE32_val.
  rewrite (boxType_eqb bytes o x69 x73 x70 x65 "ispe") by done.
  rewrite (boxType_eqb bytes o x6d x65 x74 x61 "meta") by done.
  rewrite (boxType_eqb bytes o x69 x70 x72 x70 "iprp") by done.
  rewrite (boxType_eqb bytes o x69 x70 x63 x6f "ipco") by done.
  fold ispe meta iprp ipco.
  destruct (Z.eqb_spec (BE32 bytes o) 0) as [E|E].
  { by rewrite bool_decide_eq_true_2. }
  rewrite (bool_decide_eq_false_2 _ E).
  repeat case_bool_decide; simpl; try done; tauto.
Qed.

Lemma avifLoop_0 (bytes : Uint8Array) (o : Z) :
  avifLoop 0 bytes o = if o <? len bytes - 8 then None else Some fallback.
Proof. reflexivity. Qed.

Lemma avifLoop_S (fuel : nat) (bytes : Uint8Array) (o : Z) :
  avifLoop (S fuel) bytes o =
  if o <? len bytes - 8 then
    match avifBody bytes o with
    | Next o' => avifLoop fuel bytes o'
    | Break => Some fallback
    | Return d => Some d
    end
  else Some fallback.
Proof. reflexivity. Qed.

Lemma jpegLoop_0 (bytes : Uint8Array) (i : Z) :
  jpegLoop 0 bytes i = if i <? len bytes then None else Some fallback.
Proof. reflexivity. Qed.

Lemma jpegLoop_S (fuel : nat) (bytes : Uint8Array) (i : Z) :
  jpegLoop (S fuel) bytes i =
  if i <? len bytes then
    match jpegBody bytes i with
    | Next i' => jpegLoop fuel bytes i'
    | Break => Some fallback
    | Return d => Some d
    end
  else Some fallback.
Proof. reflexivity. Qed.

#[local] Opaque avifBody jpegBody.

Lemma avifLoop_mono (bytes : Uint8Array) (fuel fuel' : nat) (o : Z) (d : Dimensions) :
  avifLoop fuel bytes o = Some d -> (fuel <= fuel')%nat -> avifLoop fuel' bytes o = Some d.
Proof.
  revert fuel' o. induction fuel as [|fuel IH]; intros fuel' o H Hle.
  - rewrite avifLoop_0 in H. destruct (o <? len bytes - 8) eqn:E; [discriminate H|].
    destruct fuel'; [rewrite avifLoop_0 | rewrite avifLoop_S]; rewrite E; exact H.
  - destruct fuel' as [|fuel']; [lia|]. rewrite avifLoop_S in *.
    destruct (o <? len bytes - 8); [|exact H].
    destruct (avifBody bytes o); [|exact H..]. apply IH; [exact H|lia].
Qed.

(** Whatever the walk of the code returns, [AvifWalk] describes. *)
Lemma avifLoop_walk (bytes : Uint8Array) (fuel : nat) (o : Z) (d : Dimensions) :
  avifLoop fuel bytes o = Some d -> AvifWalk bytes o d.
Proof.
  revert o. induction fuel as [|fuel IH]; intros o.
  - rewrite avifLoop_0. destruct (Z.ltb_spec o (len bytes - 8)) as [Hlt|Hge].
    + intros H. discriminate H.
    + intros [= <-]. by apply walk_past_end.
  - rewrite avifLoop_S. destruct (Z.ltb_spec o (len bytes - 8)) as [Hlt|Hge].
    2:{ intros [= <-]. by apply walk_past_end. }
    rewrite avifBody_spec.
    case_bool_decide as Hz; [intros [= <-]; by apply walk_size_zero|].
    case_bool_decide as Hi; [intros [= <-]; by apply walk_ispe|].
    case_bool_decide as Hm; [intros H; apply walk_meta; auto|].
    case_bool_decide as Hc; [intros H; apply walk_container; auto|].
    intros H. apply walk_skip; auto.
Qed.

(** Whatever [AvifWalk] describes, the walk of the code returns, given
    fuel for as many rounds as the description has steps. *)
Lemma walk_avifLoop (bytes : Uint8Array) (o : Z) (d : Dimensions) :
  AvifWalk bytes o d -> exists fuel, avifLoop fuel bytes o = Some d.
Proof.
  induction 1 as [o Hge|o Hlt Hz|o Hlt Hz Hi|o d Hlt Hz Hm _ [fuel IH]
                 |o d Hlt Hz Hc _ [fuel IH]|o d Hlt Hz Hi Hm Hp Hc _ [fuel IH]].
  - exists 0%nat. rewrite avifLoop_0.
    destruct (Z.ltb_spec o (len bytes - 8)); [lia|reflexivity].
  - exists 1%nat. rewrite avifLoop_S. destruct (Z.ltb_spec o (len bytes - 8)); [|lia].
    rewrite avifBody_spec. rewrite (bool_decide_eq_true_2 _ Hz). reflexivity.
  - exists 1%nat. rewrite avifLoop_S. destruct (Z.ltb_spec o (len bytes - 8)); [|lia].
    rewrite avifBody_spec.
    rewrite (bool_decide_eq_false_2 _ Hz), (bool_decide_eq_true_2 _ Hi). reflexivity.
  - exists (S fuel). rewrite avifLoop_S. destruct (Z.ltb_spec o (len bytes - 8)); [|lia].
    rewrite avifBody_spec. rewrite (bool_decide_eq_false_2 _ Hz).
    case_bool_decide as Hi.
    { exfalso. unfold typeAt, ispe, meta in *. rewrite Hm in Hi. discriminate Hi. }
    rewrite (bool_decide_eq_true_2 _ Hm). exact IH.
  - exists (S fuel). rewrite avifLoop_S. destruct (Z.ltb_spec o (len bytes - 8)); [|lia].
    rewrite avifBody_spec. rewrite (bool_decide_eq_false_2 _ Hz).
    case_bool_decide as Hi.
    { exfalso. unfold typeAt, ispe, iprp, ipco in *.
      destruct Hc as [Hc|Hc]; rewrite Hc in Hi; discriminate Hi. }
    case_bool_decide as Hm.
    { exfalso. unfold typeAt, meta, iprp, ipco in *.
      destruct Hc as [Hc|Hc]; rewrite Hc in Hm; discriminate Hm. }
    rewrite (bool_decide_eq_true_2 _ Hc). exact IH.
  - exists (S fuel). rewrite avifLoop_S. destruct (Z.ltb_spec o (len bytes - 8)); [|lia].
    rewrite avifBody_spec.
    rewrite (bool_decide_eq_false_2 _ Hz), (bool_decide_eq_false_2 _ Hi),
      (bool_decide_eq_false_2 _ Hm).
    rewrite bool_decide_eq_false_2 by tauto. exact IH.
Qed.

(** The walk on [avif_cycle] alternates between the offsets 0 and 16. *)
Lemma avif_cycle_rounds :
  avifBody avif_cycle 0 = Next 16 /\ avifBody avif_cycle 16 = Next 0.
Proof. split; reflexivity. Qed.

Lemma avifLoop_cycle (fuel : nat) :
  avifLoop fuel avif_cycle 0 = None /\ avifLoop fuel avif_cycle 16 = None.
Proof.
  destruct avif_cycle_rounds as [H0 H16].
  induction fuel as [|fuel [IH0 IH16]]; [split; reflexivity|].
  split.
  - change (avifLoop (S fuel) avif_cycle 0)
      with (match avifBody avif_cycle 0 with
            | Next o' => avifLoop fuel avif_cycle o'
            | Break => Some fallback
            | Return d => Some d
            end).
    by rewrite H0.
  - change (avifLoop (S fuel) avif_cycle 16)
      with (match avifBody avif_cycle 16 with
            | Next o' => avifLoop fuel avif_cycle o'
            | Break => Some fallback
            | Return d => Some d
            end).
    by rewrite H16.
Qed.

Lemma AvifWalk_functional (bytes : Uint8Array) (o : Z) (d d' : Dimensions) :
  AvifWalk bytes o d -> AvifWalk bytes o d' -> d = d'.
Proof.
  intros H. revert d'.
  induction H as [o Hge|o Hlt Hz|o Hlt Hz Hi|o d Hlt Hz Hm _ IH
                 |o d Hlt Hz Hc _ IH|o d Hlt Hz Hi Hm Hp Hc _ IH];
    intros d' H'; inversion H'; subst; try reflexivity; try lia; auto;
    exfalso;
    repeat match goal with H : _ \/ _ |- _ => destruct H end;
    try contradiction;
    unfold typeAt, ispe, meta, iprp, ipco in *; simpl in *; congruence.
Qed.

(** *** The walk of the format description *)

Lemma BE32_UBE32 (bytes : Uint8Array) (p : Z) :
  u8 bytes p < 128 -> BE32 bytes p = UBE32 bytes p.
Proof.
  intros Hp. unfold BE32, UBE32.
  pose proof (u8_range bytes p). pose proof (u8_range bytes (p + 1)).
  pose proof (u8_range bytes (p + 2)). pose proof (u8_range bytes (p + 3)).
  apply ToInt32_id. lia.
Qed.

Lemma typeAt_unique (bytes : Uint8Array) (o : Z) (t t' : list byte) :
  typeAt bytes o t -> typeAt bytes o t' -> t = t'.
Proof.
  unfold typeAt. intros -> H. revert t' H.
  induction t as [|c t IH]; intros [|c' t'] H; simpl in H; try done.
  injection H as -> H. f_equal. by apply IH.
Qed.

(** When none of the 32-bit fields the walk reads has its top bit set, the
    loop of the code goes the same way, one round for each box header. *)
Lemma IsoWalk_avifLoop (bytes : Uint8Array) (o : Z) (reads : list Z) (d : Dimensions) :
  IsoWalk bytes o reads d ->
  Forall (fun p => u8 bytes p < 128) reads ->
  avifLoop (length reads) bytes o = Some d.
Proof.
  induction 1 as [o Hge|o Hlt Hz|o Hlt Hz Hi|o reads d Hlt Hz Hm _ IH
                 |o reads d Hlt Hz Hc _ IH|o reads d Hlt Hz Hi Hm Hp Hc _ IH];
    intros Hlow.
  - simpl length. rewrite avifLoop_0.
    destruct (Z.ltb_spec o (len bytes - 8)); [lia|reflexivity].
  - apply Forall_cons in Hlow as [Ho _]. simpl length. rewrite avifLoop_S.
    destruct (Z.ltb_spec o (len bytes - 8)); [|lia].
    rewrite avifBody_spec, (BE32_UBE32 bytes o Ho).
    rewrite (bool_decide_eq_true_2 _ Hz). reflexivity.
  - apply Forall_cons in Hlow as [Ho Hlow]. apply Forall_cons in Hlow as [Hw Hlow].
    apply Forall_cons in Hlow as [Hh _]. simpl length. rewrite avifLoop_S.
    destruct (Z.ltb_spec o (len bytes - 8)); [|lia].
    rewrite avifBody_spec, (BE32_UBE32 bytes o Ho), (BE32_UBE32 bytes _ Hw),
      (BE32_UBE32 bytes _ Hh).
    rewrite (bool_decide_eq_false_2 _ Hz), (bool_decide_eq_true_2 _ Hi). reflexivity.
  - apply Forall_cons in Hlow as [Ho Hlow]. simpl length. rewrite avifLoop_S.
    destruct (Z.ltb_spec o (len bytes - 8)); [|lia].
    rewrite avifBody_spec, (BE32_UBE32 bytes o Ho).
    rewrite (bool_decide_eq_false_2 _ Hz).
    rewrite (bool_decide_eq_false_2 (typeAt bytes o ispe)).
    2:{ intros Hi. pose proof (typeAt_unique _ _ _ _ Hi Hm) as E. discriminate E. }
    rewrite (bool_decide_eq_true_2 _ Hm). by apply IH.
  - apply Forall_cons in Hlow as [Ho Hlow]. simpl length. rewrite avifLoop_S.
    destruct (Z.ltb_spec o (len bytes - 8)); [|lia].
    rewrite avifBody_spec, (BE32_UBE32 bytes o Ho).
    rewrite (bool_decide_eq_false_2 _ Hz).
    rewrite (bool_decide_eq_false_2 (typeAt bytes o ispe)).
    2:{ intros Hi. destruct Hc as [Hc|Hc];
          pose proof (typeAt_unique _ _ _ _ Hi Hc) as E; discriminate E. }
    rewrite (bool_decide_eq_false_2 (typeAt bytes o meta)).
    2:{ intros Hm. destruct Hc as [Hc|Hc];
          pose proof (typeAt_unique _ _ _ _ Hm Hc) as E; discriminate E. }
    rewrite (bool_decide_eq_true_2 _ Hc). by apply IH.
  - apply Forall_cons in Hlow as [Ho Hlow]. simpl length. rewrite avifLoop_S.
    destruct (Z.ltb_spec o (len bytes - 8)); [|lia].
    rewrite avifBody_spec, (BE32_UBE32 bytes o Ho).
    rewrite (bool_decide_eq_false_2 _ Hz), (bool_decide_eq_false_2 _ Hi),
      (bool_decide_eq_false_2 _ Hm).
    rewrite bool_decide_eq_false_2 by tauto. by apply IH.
Qed.

Ltac iso_side :=
  lazymatch goal with
  | |- _ < _ => vm_compute; reflexivity
  | |- _ <= _ => vm_compute; discriminate
  | |- UBE32 _ _ <> 0 => vm_compute; discriminate
  | |- UBE32 _ _ = 0 => vm_compute; reflexivity
  | |- ~ typeAt _ _ _ => vm_compute; discriminate
  | |- typeAt _ _ _ => vm_compute; reflexivity
  | |- _ \/ _ => first [left; vm_compute; reflexivity | right; vm_compute; reflexivity]
  end.

Ltac iso_at n :=
  lazymatch goal with
  | |- IsoWalk ?b _ ?r ?d => change (IsoWalk b n r d)
  end.

Lemma IsoWalk_avif_top_bit :
  IsoWalk avif_top_bit 0 [0; 24; 36; 44; 52; 64; 68]
    {| width := 4294967295; height := 800 |}.
Proof.
  apply iso_skip; [iso_side..|]. iso_at 24.
  apply iso_meta; [iso_side..|]. iso_at 36.
  apply iso_container; [iso_side..|]. iso_at 44.
  apply iso_container; [iso_side..|]. iso_at 52.
  change (IsoWalk avif_top_bit 52 [52; 52 + 12; 52 + 16]
            {| width := UBE32 avif_top_bit (52 + 12);
               height := UBE32 avif_top_bit (52 + 16) |}).
  apply iso_ispe; iso_side.
Qed.

Lemma IsoWalk_avif_cycle : IsoWalk avif_cycle 0 [0; 16] fallback.
Proof.
  apply iso_skip; [iso_side..|]. iso_at 16.
  apply iso_skip; [iso_side..|].
  apply iso_past_end. iso_side.
Qed.

(** C8 fails on [avif_top_bit], the meta > iprp > ipco > ispe sample with
    the width field of its ispe box set to FF FF FF FF.  The walk of the
    format description goes 0, 24, 36, 44, 52 and reads the big-endian
    32-bit width 4294967295 at box-start+12; the code goes the same way and
    returns -1, because its shift by 24 wraps into the sign bit.  Box sizes
    are read the same way: on [avif_cycle] the description skips the second
    box by its size 4294967280 and ends past the buffer with the fallback,
    while the code reads -16 and never returns. *)
Theorem getAvifDimensions_signed_fields (n : nat) :
  detectFormat avif_top_bit = "avif"
  /\ IsoWalk avif_top_bit 0 [0; 24; 36; 44; 52; 64; 68]
       {| width := 4294967295; height := 800 |}
  /\ getAvifDimensions (5 + n) avif_top_bit = Some {| width := -1; height := 800 |}
  /\ IsoWalk avif_cycle 0 [0; 16] fallback
  /\ getAvifDimensions n avif_cycle = None.
Proof.
  split; [reflexivity|]. split; [exact IsoWalk_avif_top_bit|].
  split; [|split; [exact IsoWalk_avif_cycle | apply avifLoop_cycle]].
  unfold getAvifDimensions. apply (avifLoop_mono _ 5); [reflexivity | lia].
Qed.

(** ** Termination *)

(** C2 fails on [avif_cycle], a buffer that [detectFormat] classifies as
    "avif": the size field FF FF FF F0 of its second box is read as -16, the
    walk goes from offset 16 back to offset 0 and round again, and no amount
    of fuel makes [getAvifDimensions] or [getImageDimensions] return. *)
Theorem getAvifDimensions_cycle (fuel : nat) :
  detectFormat avif_cycle = "avif"
  /\ be32 avif_cycle 16 = -16
  /\ getAvifDimensions fuel avif_cycle = None
  /\ getImageDimensions fuel avif_cycle = None
  /\ ~ (exists d, AvifWalk avif_cycle 0 d).
Proof.
  pose proof (avifLoop_cycle fuel) as [H0 _].
  split; [reflexivity|]. split; [reflexivity|]. split; [exact H0|].
  split; [exact H0|].
  intros [d [n Hn]%walk_avifLoop].
  destruct (avifLoop_cycle n) as [Hn0 _]. congruence.
Qed.

Lemma getImageDimensions_returns (data : ArrayBuffer) (fuel : nat) :
  detectFormat data <> "avif" -> (length data <= fuel)%nat ->
  is_Some (getImageDimensions fuel data).
Proof.
  intros Hfmt Hfuel. unfold getImageDimensions. cbv zeta.
  destruct (String.eqb_spec (detectFormat data) "png"); [done|].
  destruct (String.eqb_spec (detectFormat data) "jpeg").
  { destruct (jpegLoop_scan data fuel 2) as (d & Hd & _); [unfold len; lia|].
    unfold getJpegDimensions. by rewrite Hd. }
  destruct (String.eqb_spec (detectFormat data) "gif"); [done|].
  destruct (String.eqb_spec (detectFormat data) "webp"); [done|].
  destruct (String.eqb_spec (detectFormat data) "avif"); done.
Qed.

(** ** Sign of the dimensions *)

Lemma getPngDimensions_sign (bytes : Uint8Array) :
  (width (getPngDimensions bytes) < 0 <-> 128 <= u8 bytes 16)
  /\ (height (getPngDimensions bytes) < 0 <-> 128 <= u8 bytes 20).
Proof.
  unfold getPngDimensions, be32. simpl.
  split; apply bor_be32_sign; apply u8_range.
Qed.

Lemma jpegLoop_nonneg (bytes : Uint8Array) (fuel : nat) (i : Z) (d : Dimensions) :
  jpegLoop fuel bytes i = Some d -> 0 <= width d /\ 0 <= height d.
Proof.
  revert i. induction fuel as [|fuel IH]; intros i; simpl;
    destruct (i <? len bytes); try done; try (intros [= <-]; simpl; lia).
  rewrite jpegBody_spec.
  repeat case_bool_decide; try apply IH.
  intros [= <-]. simpl.
  pose proof (BE16_range bytes (i + 7)). pose proof (BE16_range bytes (i + 5)). lia.
Qed.

Lemma LE24_range bytes o : 0 <= LE24 bytes o < 2 ^ 24.
Proof.
  unfold LE24. pose proof (u8_range bytes o). pose proof (u8_range bytes (o + 1)).
  pose proof (u8_range bytes (o + 2)). lia.
Qed.

Lemma getWebpDimensions_nonneg (bytes : Uint8Array) :
  0 <= width (getWebpDimensions bytes) /\ 0 <= height (getWebpDimensions bytes).
Proof.
  rewrite getWebpDimensions_tags.
  pose proof (LE24_range bytes 24). pose proof (LE24_range bytes 27).
  assert (Hland : forall x, 0 <= Z.land x 0x3FFF) by (intros x; apply Z.land_nonneg; lia).
  repeat case_bool_decide; simpl; split;
    try lia; try apply Hland; try (apply Z.add_nonneg_nonneg; [apply Hland | lia]).
Qed.

(** Outside PNG and AVIF the dimensions are never negative. *)
Lemma getImageDimensions_nonneg (data : ArrayBuffer) (fuel : nat) (d : Dimensions) :
  detectFormat data <> "png" -> detectFormat data <> "avif" ->
  getImageDimensions fuel data = Some d -> 0 <= width d /\ 0 <= height d.
Proof.
  intros Hpng Havif. unfold getImageDimensions. cbv zeta.
  destruct (String.eqb_spec (detectFormat data) "png"); [done|].
  destruct (String.eqb_spec (detectFormat data) "jpeg"); [apply jpegLoop_nonneg|].
  destruct (String.eqb_spec (detectFormat data) "gif").
  { intros [= <-]. unfold getGifDimensions. simpl. rewrite !le16_val.
    pose proof (LE16_range data 6). pose proof (LE16_range data 8). lia. }
  destruct (String.eqb_spec (detectFormat data) "webp").
  { intros [= <-]. apply getWebpDimensions_nonneg. }
  destruct (String.eqb_spec (detectFormat data) "avif"); [done|].
  intros [= <-]. simpl. lia.
Qed.

(** C4 fails on [png_top_bit], a buffer detected as "png" whose width field
    is 80 00 00 00: the shift by 24 overflows into the sign bit and the
    reported width is -2147483648.  [getImageInfo] passes it on. *)
Theorem getImageDimensions_negative_width (fuel : nat) :
  detectFormat png_top_bit = "png"
  /\ getImageDimensions fuel png_top_bit
     = Some {| width := -2147483648; height := 1 |}
  /\ getImageInfo fuel png_top_bit
     = Some {| info_width := -2147483648; info_height := 1;
               info_format := "png"; info_orientation := "portrait" |}.
Proof. repeat split. Qed.

(** The ispe read of the AVIF walk has the same overflow. *)
Lemma getAvifDimensions_negative_width :
  detectFormat avif_top_bit = "avif"
  /\ getImageDimensions 5 avif_top_bit = Some {| width := -1; height := 800 |}.
Proof. split; reflexivity. Qed.

(** ** Reads past the end of the buffer *)

Lemma u8_pad (data : ArrayBuffer) (k : nat) (i : Z) :
  u8 (data ++ replicate k x00) i = u8 data i.
Proof.
  unfold u8, idx. destruct (Z.ltb_spec i 0); [done|].
  destruct (decide (Z.to_nat i < length data)%nat) as [Hlt|Hge].
  - by rewrite lookup_app_l.
  - rewrite lookup_app_r by lia. rewrite (lookup_ge_None_2 data) by lia.
    destruct (replicate k x00 !! (Z.to_nat i - length data)%nat) as [b|] eqn:E; [|done].
    apply lookup_replicate_1 in E as [-> _]. reflexivity.
Qed.

Lemma seq_pad (data : ArrayBuffer) (k : nat) (i c : Z) :
  c <> 0 -> seq (idx (data ++ replicate k x00) i) c = seq (idx data i) c.
Proof.
  intros Hc. pose proof (u8_pad data k i) as Hu. unfold u8 in Hu. unfold seq.
  destruct (idx (data ++ replicate k x00) i) as [b|], (idx data i) as [b'|];
    try done; try (by rewrite Hu).
  - rewrite Hu. by apply Z.eqb_neq.
  - rewrite <- Hu. symmetry. by apply Z.eqb_neq.
Qed.

Lemma be32_pad data k o : be32 (data ++ replicate k x00) o = be32 data o.
Proof. unfold be32. by rewrite !u8_pad. Qed.

Lemma le16_pad data k o : le16 (data ++ replicate k x00) o = le16 data o.
Proof. unfold le16. by rewrite !u8_pad. Qed.

Lemma le24_pad data k o : le24 (data ++ replicate k x00) o = le24 data o.
Proof. unfold le24. by rewrite !u8_pad. Qed.

Lemma getPngDimensions_pad data k :
  getPngDimensions (data ++ replicate k x00) = getPngDimensions data.
Proof. unfold getPngDimensions. by rewrite !be32_pad. Qed.

Lemma getGifDimensions_pad data k :
  getGifDimensions (data ++ replicate k x00) = getGifDimensions data.
Proof. unfold getGifDimensions. by rewrite !le16_pad. Qed.

Lemma getWebpDimensions_pad data k :
  getWebpDimensions (data ++ replicate k x00) = getWebpDimensions data.
Proof.
  unfold getWebpDimensions.
  rewrite !seq_pad by lia. by rewrite !le24_pad, !le16_pad, !u8_pad.
Qed.

Lemma jpegBody_pad data k i :
  jpegBody (data ++ replicate k x00) i = jpegBody data i.
Proof. rewrite !jpegBody_spec. unfold BE16. by rewrite !u8_pad. Qed.

Lemma jpegLoop_pad (data : ArrayBuffer) (k fuel : nat) (i : Z) :
  len data + Z.of_nat k - i <= Z.of_nat fuel ->
  jpegLoop fuel (data ++ replicate k x00) i = jpegLoop fuel data i.
Proof.
  assert (Hlen : len (data ++ replicate k x00) = len data + Z.of_nat k).
  { unfold len. rewrite length_app, length_replicate. lia. }
  revert i. induction fuel as [|fuel IH]; intros i Hfuel; simpl; rewrite Hlen.
  - destruct (Z.ltb_spec i (len data + Z.of_nat k)); [lia|].
    by destruct (Z.ltb_spec i (len data)); [lia|].
  - destruct (Z.ltb_spec i (len data + Z.of_nat k)) as [Hlt|Hge];
      destruct (Z.ltb_spec i (len data)) as [Hlt'|Hge']; try done; try lia.
    + rewrite jpegBody_pad, jpegBody_spec.
      pose proof (BE16_range data (i + 2)).
      repeat case_bool_decide; try done; apply IH; lia.
    + rewrite jpegBody_pad, jpegBody_spec.
      rewrite (u8_ge data i Hge'). rewrite bool_decide_eq_false_2 by lia.
      rewrite IH by lia. destruct fuel; simpl;
        by destruct (Z.ltb_spec (i + 1) (len data)); [lia|].
Qed.

Lemma getImageDimensions_pad (data : ArrayBuffer) (fuel k : nat) :
  detectFormat data <> "avif" -> (length data + k <= fuel)%nat ->
  getImageDimensions fuel (data ++ replicate k x00) = getImageDimensions fuel data.
Proof.
  intros Hfmt Hfuel. unfold getImageDimensions. cbv zeta.
  rewrite !detectFormat_firstMatch, firstMatch_pad, <- !detectFormat_firstMatch.
  rewrite getPngDimensions_pad, getGifDimensions_pad, getWebpDimensions_pad.
  unfold getJpegDimensions. rewrite jpegLoop_pad by (unfold len; lia).
  destruct (String.eqb_spec (detectFormat data) "avif"); [done|].
  repeat (destruct (String.eqb _ _); [done|]). done.
Qed.

Lemma be32_short (bytes : Uint8Array) (o : Z) : len bytes <= o -> be32 bytes o = 0.
Proof. intros H. unfold be32. rewrite !u8_ge by lia. reflexivity. Qed.

Lemma le16_short (bytes : Uint8Array) (o : Z) : len bytes <= o -> le16 bytes o = 0.
Proof. intros H. unfold le16. rewrite !u8_ge by lia. reflexivity. Qed.

(** ** Totality and the fallback *)

(** C1, as the code has it.  No reader has an error result: a read past the
    end of the buffer contributes the value 0 instead of failing.  Outside
    AVIF, [getImageDimensions] returns on every buffer and returns on a
    truncated buffer what it returns on the same buffer padded with zero
    bytes; a PNG buffer that ends before offset 16, or a GIF buffer that ends
    before offset 6, therefore gives (0, 0), not the fallback.  A buffer of
    unknown format gives (1920, 1080). *)
Theorem getImageDimensions_total (data : ArrayBuffer) (fuel k : nat) :
  detectFormat data <> "avif" -> (length data + k <= fuel)%nat ->
  is_Some (getImageDimensions fuel data)
  /\ getImageDimensions fuel (data ++ replicate k x00) = getImageDimensions fuel data
  /\ (detectFormat data = "png" -> (length data <= 16)%nat ->
      getImageDimensions fuel data = Some {| width := 0; height := 0 |})
  /\ (detectFormat data = "gif" -> (length data <= 6)%nat ->
      getImageDimensions fuel data = Some {| width := 0; height := 0 |})
  /\ (detectFormat data = "unknown" -> getImageDimensions fuel data = Some fallback).
Proof.
  intros Hfmt Hfuel.
  split; [apply getImageDimensions_returns; [done|lia]|].
  split; [by apply getImageDimensions_pad|].
  unfold getImageDimensions. cbv zeta. repeat split.
  - intros -> Hlen. simpl. unfold getPngDimensions.
    by rewrite !be32_short by (unfold len; lia).
  - intros -> Hlen. simpl. unfold getGifDimensions.
    by rewrite !le16_short by (unfold len; lia).
  - by intros ->.
Qed.

Lemma getImageDimensions_total_witness :
  is_Some (getImageDimensions 14 png_signature_only)
  /\ getImageDimensions 14 (png_signature_only ++ replicate 10 x00)
     = getImageDimensions 14 png_signature_only
  /\ getImageDimensions 14 png_signature_only = Some {| width := 0; height := 0 |}.
Proof.
  assert (Hfmt : detectFormat png_signature_only <> "avif") by discriminate.
  assert (Hfuel : (length png_signature_only + 10 <= 14)%nat) by (simpl; lia).
  destruct (getImageDimensions_total png_signature_only 14 10 Hfmt Hfuel)
    as (Hsome & Hpad & Hpng & _ & _).
  split; [exact Hsome|]. split; [exact Hpad|].
  apply Hpng; [reflexivity | simpl; lia].
Defined.

(** C1, as stated, fails: the bare PNG signature is detected as "png", is
    too short to contain the dimension fields, and gives (0, 0). *)
Lemma truncated_not_fallback :
  ~ (forall (data : ArrayBuffer) (fuel : nat),
       truncated data -> getImageDimensions fuel data = Some fallback).
Proof.
  intros H. specialize (H png_signature_only 0%nat).
  assert (Ht : truncated png_signature_only).
  { left. split; [reflexivity | simpl; lia]. }
  specialize (H Ht). discriminate H.
Qed.

(** ** Extension lookup *)

Lemma extensions_lookup_Some (s v : string) :
  extensions !! s = Some v ->
  (s, v) ∈ [("jpeg", "jpg"); ("jpg", "jpg"); ("png", "png");
            ("gif", "gif"); ("webp", "webp"); ("avif", "avif")].
Proof. unfold extensions. apply elem_of_list_to_map_2. Qed.

(** Away from the names inherited from [Object.prototype], [getExtension]
    returns a string that it maps to itself: "jpg" for "jpeg" and "jpg",
    the key itself for the other four known keys and for any unknown key. *)
Lemma getExtension_idempotent (s : string) :
  s ∉ ObjectPrototype ->
  exists t, getExtension s = Str t /\ getExtension t = Str t
            /\ (extensions !! s = None -> t = s).
Proof.
  intros Hs. unfold getExtension at 1. unfold getProp.
  destruct (extensions !! s) as [v|] eqn:E.
  - apply extensions_lookup_Some in E. exists v.
    repeat (apply elem_of_cons in E as [[= -> ->]|E]; [by repeat split|]).
    by apply elem_of_nil in E.
  - rewrite decide_False by done. exists s. simpl. split; [done|]. split; [|done].
    unfold getExtension, getProp. rewrite E. by rewrite decide_False.
Qed.

Lemma getExtension_idempotent_witness :
  exists t, getExtension "bmp" = Str t /\ getExtension t = Str t
            /\ (extensions !! "bmp" = None -> t = "bmp").
Proof. apply getExtension_idempotent. vm_compute. by intros H. Defined.

(** C10 fails on "constructor", a key outside the table: the object
    literal inherits a property of that name from [Object.prototype], the
    lookup finds it, and what comes back is that inherited function, not the
    string "constructor". *)
Theorem getExtension_inherited_key :
  extensions !! "constructor" = None
  /\ getExtension "constructor" = Inherited "constructor"
  /\ getExtension "constructor" <> Str "constructor".
Proof.
  assert (H : getExtension "constructor" = Inherited "constructor") by reflexivity.
  split; [reflexivity|]. split; [exact H|]. rewrite H. intros E. inversion E.
Qed.

(** * Further properties of the processor *)

(** ** What [detectFormat] can return *)

Lemma firstMatch_cases (data : ArrayBuffer) :
  (firstMatch data = "jpeg" /\ sigJPEG data)
  \/ (firstMatch data = "png" /\ ~ sigJPEG data /\ sigPNG data)
  \/ (firstMatch data = "gif" /\ ~ sigJPEG data /\ ~ sigPNG data /\ sigGIF data)
  \/ (firstMatch data = "webp" /\ sigWEBP data)
  \/ (firstMatch data = "avif" /\ sigAVIF data)
  \/ firstMatch data = "unknown".
Proof. unfold firstMatch. repeat case_decide; tauto. Qed.

(** X1.  [detectFormat] names one of six formats and nothing else (never "jpg"),
    and a named format needs its whole signature inside the buffer: 3 bytes
    for "jpeg", 4 for "png" and "gif", 12 for "webp" and "avif". *)
Theorem detectFormat_range (data : ArrayBuffer) :
  In (detectFormat data) formats
  /\ (detectFormat data = "jpeg" -> (3 <= length data)%nat)
  /\ (detectFormat data = "png" -> (4 <= length data)%nat)
  /\ (detectFormat data = "gif" -> (4 <= length data)%nat)
  /\ (detectFormat data = "webp" -> (12 <= length data)%nat)
  /\ (detectFormat data = "avif" -> (12 <= length data)%nat).
Proof.
  rewrite detectFormat_firstMatch.
  destruct (firstMatch_cases data) as [[-> H]|[[-> H]|[[-> H]|[[-> H]|[[-> H]| ->]]]]];
    (split; [simpl; tauto|]); repeat split; intros E; try discriminate E;
    unfold sigJPEG, sigPNG, sigGIF, sigWEBP, sigAVIF in H;
    repeat match goal with
           | H : _ /\ _ |- _ => destruct H
           | H : _ \/ _ |- _ => destruct H
           | H : bytes_at _ _ _ |- _ => apply bytes_at_length in H; simpl in H
           end; lia.
Qed.

Lemma detectFormat_range_witness :
  (3 <= length jpeg_no_sof)%nat /\ (12 <= length vp8l_100x50)%nat.
Proof.
  split.
  - apply (proj1 (proj2 (detectFormat_range jpeg_no_sof))). reflexivity.
  - apply (proj1 (proj2 (proj2 (proj2 (proj2 (detectFormat_range vp8l_100x50)))))).
    reflexivity.
Defined.

(** ** PNG: the fields as unsigned values *)

Lemma UBE32_range (bytes : Uint8Array) (o : Z) : 0 <= UBE32 bytes o < 2 ^ 32.
Proof.
  unfold UBE32. pose proof (u8_range bytes o). pose proof (u8_range bytes (o + 1)).
  pose proof (u8_range bytes (o + 2)). pose proof (u8_range bytes (o + 3)). lia.
Qed.

Lemma be32_unsigned (bytes : Uint8Array) (o : Z) :
  be32 bytes o = if decide (UBE32 bytes o < 2 ^ 31) then UBE32 bytes o
                 else UBE32 bytes o - 2 ^ 32.
Proof.
  rewrite be32_val. pose proof (UBE32_range bytes o) as Hr.
  replace (u8 bytes o * 2 ^ 24 + u8 bytes (o + 1) * 2 ^ 16 + u8 bytes (o + 2) * 2 ^ 8
           + u8 bytes (o + 3)) with (UBE32 bytes o) by (unfold UBE32; lia).
  case_decide; [apply ToInt32_id | apply ToInt32_hi]; lia.
Qed.

(** X2.  [getPngDimensions] returns the unsigned big-endian 32-bit fields at
    offsets 16 and 20 whenever they are below 2^31, as in every valid PNG; a
    field from 2^31 on comes back 2^32 too small, hence negative. *)
Theorem getPngDimensions_unsigned (bytes : Uint8Array) :
  width (getPngDimensions bytes)
  = (if decide (UBE32 bytes 16 < 2 ^ 31) then UBE32 bytes 16 else UBE32 bytes 16 - 2 ^ 32)
  /\ height (getPngDimensions bytes)
  = (if decide (UBE32 bytes 20 < 2 ^ 31) then UBE32 bytes 20 else UBE32 bytes 20 - 2 ^ 32).
Proof. unfold getPngDimensions. simpl. by rewrite !be32_unsigned. Qed.

(** ** The fixed-offset readers look at the header only *)

Lemma idx_take (data : ArrayBuffer) (n : nat) (i : Z) :
  i < Z.of_nat n -> idx (take n data) i = idx data i.
Proof.
  intros Hi. unfold idx. destruct (Z.ltb_spec i 0); [done|].
  apply lookup_take_lt. lia.
Qed.

Lemma u8_take (data : ArrayBuffer) (n : nat) (i : Z) :
  i < Z.of_nat n -> u8 (take n data) i = u8 data i.
Proof. intros Hi. unfold u8. by rewrite idx_take. Qed.

Lemma bytes_at_take (data : ArrayBuffer) (n o : nat) (sig : list byte) :
  (o + length sig <= n)%nat -> bytes_at (take n data) o sig <-> bytes_at data o sig.
Proof.
  revert o. induction sig as [|c sig IH]; intros o Ho.
  - by rewrite !bytes_at_nil.
  - simpl in Ho. rewrite !bytes_at_cons, IH by lia.
    by rewrite lookup_take_lt by lia.
Qed.

Lemma detectFormat_take (data : ArrayBuffer) (n : nat) :
  (12 <= n)%nat -> detectFormat (take n data) = detectFormat data.
Proof.
  intros Hn. unfold detectFormat. cbv zeta. rewrite take_take.
  by replace (12 `min` n)%nat with 12%nat by lia.
Qed.

Lemma detectFormat_take_png (data : ArrayBuffer) (n : nat) :
  (4 <= n)%nat -> detectFormat data = "png" -> detectFormat (take n data) = "png".
Proof.
  intros Hn. rewrite !detectFormat_firstMatch. intros Hpng.
  destruct (firstMatch_cases data) as [[E H]|[[E H]|[[E H]|[[E H]|[[E H]|E]]]]];
    rewrite E in Hpng; try discriminate Hpng.
  destruct H as [HJ HP]. unfold firstMatch.
  rewrite decide_False by (unfold sigJPEG in *; by rewrite bytes_at_take by (simpl; lia)).
  by rewrite decide_True by (unfold sigPNG in *; by rewrite bytes_at_take by (simpl; lia)).
Qed.

Lemma detectFormat_take_gif (data : ArrayBuffer) (n : nat) :
  (4 <= n)%nat -> detectFormat data = "gif" -> detectFormat (take n data) = "gif".
Proof.
  intros Hn. rewrite !detectFormat_firstMatch. intros Hgif.
  destruct (firstMatch_cases data) as [[E H]|[[E H]|[[E H]|[[E H]|[[E H]|E]]]]];
    rewrite E in Hgif; try discriminate Hgif.
  destruct H as (HJ & HP & HG). unfold firstMatch.
  rewrite decide_False by (unfold sigJPEG in *; by rewrite bytes_at_take by (simpl; lia)).
  rewrite decide_False by (unfold sigPNG in *; by rewrite bytes_at_take by (simpl; lia)).
  by rewrite decide_True by (unfold sigGIF in *; by rewrite bytes_at_take by (simpl; lia)).
Qed.

(** X3.  For a PNG, GIF or WebP buffer [getImageDimensions] depends on the header
    alone: the first 24 bytes of a PNG, the first 10 of a GIF, the first 30
    of a WebP.  Whatever follows, or is cut off, does not change the result. *)
Theorem getImageDimensions_header_only (data : ArrayBuffer) (fuel n : nat) :
  (detectFormat data = "png" -> (24 <= n)%nat ->
   getImageDimensions fuel (take n data) = getImageDimensions fuel data)
  /\ (detectFormat data = "gif" -> (10 <= n)%nat ->
   getImageDimensions fuel (take n data) = getImageDimensions fuel data)
  /\ (detectFormat data = "webp" -> (30 <= n)%nat ->
   getImageDimensions fuel (take n data) = getImageDimensions fuel data).
Proof.
  unfold getImageDimensions. cbv zeta. repeat split; intros Hfmt Hn.
  - rewrite (detectFormat_take_png data n) by (done || lia). rewrite Hfmt. simpl.
    unfold getPngDimensions, be32. by rewrite !u8_take by lia.
  - rewrite (detectFormat_take_gif data n) by (done || lia). rewrite Hfmt. simpl.
    unfold getGifDimensions, le16. by rewrite !u8_take by lia.
  - rewrite detectFormat_take by lia. rewrite Hfmt. simpl.
    unfold getWebpDimensions, le24, le16.
    by rewrite !idx_take, !u8_take by lia.
Qed.

Lemma getImageDimensions_header_only_witness :
  getImageDimensions 0 (take 24 (png_top_bit ++ [xff; xff])) = getImageDimensions 0 (png_top_bit ++ [xff; xff])
  /\ getImageDimensions 0 (take 30 (vp8l_100x50 ++ [xff])) = getImageDimensions 0 (vp8l_100x50 ++ [xff]).
Proof.
  split.
  - apply (proj1 (getImageDimensions_header_only (png_top_bit ++ [xff; xff]) 0 24));
      [reflexivity | lia].
  - apply (proj2 (proj2 (getImageDimensions_header_only (vp8l_100x50 ++ [xff]) 0 30)));
      [reflexivity | lia].
Defined.

(** ** Ranges of the dimensions *)

Lemma land_mask_mod (x : Z) : Z.land x 0x3FFF = x mod 2 ^ 14.
Proof. change 0x3FFF with (Z.ones 14). apply Z.land_ones. lia. Qed.

Lemma jpegLoop_range (bytes : Uint8Array) (fuel : nat) (i : Z) (d : Dimensions) :
  jpegLoop fuel bytes i = Some d ->
  0 <= width d <= 65535 /\ 0 <= height d <= 65535.
Proof.
  revert i. induction fuel as [|fuel IH]; intros i.
  - rewrite jpegLoop_0. destruct (i <? len bytes); [done|].
    intros [= <-]. simpl. lia.
  - rewrite jpegLoop_S. destruct (i <? len bytes); [|intros [= <-]; simpl; lia].
    rewrite jpegBody_spec.
    repeat case_bool_decide; try apply IH.
    intros [= <-]. simpl.
    pose proof (BE16_range bytes (i + 7)). pose proof (BE16_range bytes (i + 5)). lia.
Qed.

Lemma getWebpDimensions_range (bytes : Uint8Array) :
  0 <= width (getWebpDimensions bytes) <= 2 ^ 24
  /\ 0 <= height (getWebpDimensions bytes) <= 2 ^ 24.
Proof.
  rewrite getWebpDimensions_tags.
  pose proof (LE24_range bytes 24). pose proof (LE24_range bytes 27).
  assert (Hmask : forall x, 0 <= Z.land x 0x3FFF < 2 ^ 14).
  { intros x. rewrite land_mask_mod. apply Z.mod_pos_bound. lia. }
  pose proof (Hmask (Z.lor (u8 bytes 21) (Z.shiftl (u8 bytes 22) 8))).
  pose proof (Hmask (Z.lor (Z.lor (Z.shiftr (u8 bytes 22) 6) (Z.shiftl (u8 bytes 23) 2))
                           (Z.shiftl (u8 bytes 24) 10))).
  pose proof (Hmask (LE16 bytes 26)). pose proof (Hmask (LE16 bytes 28)).
  repeat case_bool_decide; simpl; lia.
Qed.

(** X4.  Whatever the buffer, the dimensions are 32-bit integers.  For a JPEG or
    a GIF both lie in 0 .. 65535, and for a WebP in 0 .. 2^24; only the PNG
    and AVIF readers can go beyond that, or below 0. *)
Theorem getImageDimensions_range (data : ArrayBuffer) (fuel : nat) (d : Dimensions) :
  getImageDimensions fuel data = Some d ->
  (- 2 ^ 31 <= width d < 2 ^ 31 /\ - 2 ^ 31 <= height d < 2 ^ 31)
  /\ (detectFormat data = "jpeg" \/ detectFormat data = "gif" ->
      0 <= width d <= 65535 /\ 0 <= height d <= 65535)
  /\ (detectFormat data <> "png" -> detectFormat data <> "avif" ->
      0 <= width d <= 2 ^ 24 /\ 0 <= height d <= 2 ^ 24).
Proof.
  unfold getImageDimensions. cbv zeta.
  destruct (String.eqb_spec (detectFormat data) "png") as [E|_].
  { intros [= <-]. rewrite E. unfold getPngDimensions. simpl. rewrite !be32_val.
    pose proof (ToInt32_range (u8 data 16 * 2 ^ 24 + u8 data (16 + 1) * 2 ^ 16
                               + u8 data (16 + 2) * 2 ^ 8 + u8 data (16 + 3))).
    pose proof (ToInt32_range (u8 data 20 * 2 ^ 24 + u8 data (20 + 1) * 2 ^ 16
                               + u8 data (20 + 2) * 2 ^ 8 + u8 data (20 + 3))).
    split; [lia|]. split; [intros [?|?]; discriminate | done]. }
  destruct (String.eqb_spec (detectFormat data) "jpeg") as [E|_].
  { intros H%jpegLoop_range. lia. }
  destruct (String.eqb_spec (detectFormat data) "gif") as [E|Hgif].
  { intros [= <-]. unfold getGifDimensions. simpl. rewrite !le16_val.
    pose proof (LE16_range data 6). pose proof (LE16_range data 8). lia. }
  destruct (String.eqb_spec (detectFormat data) "webp") as [E|_].
  { intros [= <-]. pose proof (getWebpDimensions_range data). rewrite E.
    split; [lia|]. split; [intros [?|?]; discriminate | lia]. }
  destruct (String.eqb_spec (detectFormat data) "avif") as [E|_].
  2:{ intros [= <-]. simpl. split; [lia|]. split; [|lia]. intros [?|?]; done. }
  rewrite E. intros Hw%avifLoop_walk.
  split; [|split; [intros [?|?]; discriminate | done]].
  remember 0 as o eqn:Ho. clear Ho.
  induction Hw; simpl; try lia; try done.
  unfold BE32. split; apply ToInt32_range.
Qed.

Lemma getImageDimensions_range_witness :
  (- 2 ^ 31 <= 800 < 2 ^ 31 /\ - 2 ^ 31 <= 600 < 2 ^ 31)
  /\ (0 <= 800 <= 65535 /\ 0 <= 600 <= 65535)
  /\ (0 <= 800 <= 2 ^ 24 /\ 0 <= 600 <= 2 ^ 24).
Proof.
  pose proof (getImageDimensions_range jpeg_app0_sof0 2 {| width := 800; height := 600 |}
                eq_refl) as (H1 & H2 & H3).
  split; [exact H1|]. split; [apply H2; left; reflexivity|].
  apply H3; discriminate.
Defined.

(** ** WebP: the packed fields *)

Lemma lor_add_low (a k n : Z) :
  0 <= n -> 0 <= a < 2 ^ n -> Z.lor a (Z.shiftl k n) = k * 2 ^ n + a.
Proof.
  intros Hn Ha. rewrite Z.shiftl_mul_pow2 by done.
  rewrite Z.lor_comm. by apply lor_disjoint.
Qed.

(** X5.  For a "VP8L" chunk the four bytes at 21..24 are one little-endian 32-bit
    word: the width is its bits 0..13 plus 1 and the height its bits 14..27
    plus 1, so both lie in 1 .. 16384.  For a "VP8 " chunk width and height
    are the low 14 bits of the 16-bit values at 26 and 28. *)
Theorem getWebpDimensions_bit_fields (bytes : Uint8Array) :
  (chunkTag bytes VP8L ->
   getWebpDimensions bytes
   = {| width := LE32 bytes 21 mod 2 ^ 14 + 1;
        height := (LE32 bytes 21 / 2 ^ 14) mod 2 ^ 14 + 1 |})
  /\ (chunkTag bytes VP8_ ->
   getWebpDimensions bytes
   = {| width := LE16 bytes 26 mod 2 ^ 14; height := LE16 bytes 28 mod 2 ^ 14 |}).
Proof.
  rewrite getWebpDimensions_tags. split.
  - intros HL.
    rewrite (bool_decide_eq_false_2 (chunkTag bytes VP8X)).
    2:{ intros HX. by pose proof (chunkTag_unique bytes VP8X VP8L eq_refl HX HL). }
    rewrite (bool_decide_eq_true_2 _ HL). rewrite !land_mask_mod.
    unfold LE32. change (21 + 1) with 22. change (21 + 2) with 23. change (21 + 3) with 24.
    pose proof (u8_range bytes 21) as H0. pose proof (u8_range bytes 22) as H1.
    pose proof (u8_range bytes 23) as H2. pose proof (u8_range bytes 24) as H3.
    set (b0 := u8 bytes 21) in *. set (b1 := u8 bytes 22) in *.
    set (b2 := u8 bytes 23) in *. set (b3 := u8 bytes 24) in *.
    rewrite (lor_add_low b0 b1 8) by lia.
    rewrite Z.shiftr_div_pow2 by lia.
    assert (Hq : 0 <= b1 / 2 ^ 6 < 2 ^ 2).
    { split; [apply Z.div_pos; lia | apply Z.div_lt_upper_bound; lia]. }
    rewrite (lor_add_low (b1 / 2 ^ 6) b2 2) by lia.
    rewrite (lor_add_low (b2 * 2 ^ 2 + b1 / 2 ^ 6) b3 10) by lia.
    f_equal; f_equal.
    + replace (b0 + 2 ^ 8 * b1 + 2 ^ 16 * b2 + 2 ^ 24 * b3)
        with (b1 * 2 ^ 8 + b0 + (4 * b2 + 2 ^ 10 * b3) * 2 ^ 14) by lia.
      by rewrite Z.mod_add by lia.
    + f_equal. apply (Z.div_unique _ _ _ (b0 + 2 ^ 8 * (b1 mod 2 ^ 6))).
      * pose proof (Z.mod_pos_bound b1 (2 ^ 6)). lia.
      * pose proof (Z.div_mod b1 (2 ^ 6)). lia.
  - intros HS.
    rewrite (bool_decide_eq_false_2 (chunkTag bytes VP8X)).
    2:{ intros HX. by pose proof (chunkTag_unique bytes VP8X VP8_ eq_refl HX HS). }
    rewrite (bool_decide_eq_false_2 (chunkTag bytes VP8L)).
    2:{ intros HL. by pose proof (chunkTag_unique bytes VP8L VP8_ eq_refl HL HS). }
    rewrite (bool_decide_eq_true_2 _ HS). by rewrite !land_mask_mod.
Qed.

Lemma getWebpDimensions_bit_fields_witness :
  getWebpDimensions vp8l_100x50
  = {| width := LE32 vp8l_100x50 21 mod 2 ^ 14 + 1;
       height := (LE32 vp8l_100x50 21 / 2 ^ 14) mod 2 ^ 14 + 1 |}.
Proof. apply (proj1 (getWebpDimensions_bit_fields vp8l_100x50)). reflexivity. Defined.

(** ** Where the scanned dimensions come from *)

Lemma jpegLoop_source (bytes : Uint8Array) (fuel : nat) (i : Z) (d : Dimensions) :
  jpegLoop fuel bytes i = Some d ->
  d = fallback
  \/ exists j, i <= j < len bytes /\ u8 bytes j = 0xFF /\ sofMarker (u8 bytes (j + 1))
               /\ d = {| width := BE16 bytes (j + 7); height := BE16 bytes (j + 5) |}.
Proof.
  revert i. induction fuel as [|fuel IH]; intros i.
  - rewrite jpegLoop_0. destruct (i <? len bytes); [done|]. intros [= <-]. by left.
  - rewrite jpegLoop_S. destruct (Z.ltb_spec i (len bytes)) as [Hlt|Hge].
    2:{ intros [= <-]. by left. }
    rewrite jpegBody_spec. pose proof (BE16_range bytes (i + 2)).
    case_bool_decide as HFF; [case_bool_decide as HSOF|].
    + intros [= <-]. right. exists i. split; [lia|]. split; [done|]. by split.
    + intros [?|(j & Hj & ?)]%IH; [by left|]. right. exists j. split; [lia|done].
    + intros [?|(j & Hj & ?)]%IH; [by left|]. right. exists j. split; [lia|done].
Qed.

(** X6.  Dimensions other than (1920, 1080) returned for a JPEG are always read at
    a 0xFF byte of the buffer, at offset 2 or later, that is followed by a
    Start-Of-Frame marker: height from the two bytes at +5, width from the
    two bytes at +7. *)
Theorem getJpegDimensions_source (bytes : Uint8Array) (fuel : nat) (d : Dimensions) :
  getJpegDimensions fuel bytes = Some d -> d <> fallback ->
  exists j, 2 <= j < len bytes /\ u8 bytes j = 0xFF /\ sofMarker (u8 bytes (j + 1))
            /\ width d = BE16 bytes (j + 7) /\ height d = BE16 bytes (j + 5).
Proof.
  unfold getJpegDimensions.
  intros [?|(j & Hj & HFF & HSOF & ->)]%jpegLoop_source Hd; [done|].
  exists j. split; [done|]. split; [done|]. split; [done|]. by split.
Qed.

Lemma getJpegDimensions_source_witness :
  exists j, 2 <= j < len jpeg_app0_sof0 /\ u8 jpeg_app0_sof0 j = 0xFF
            /\ sofMarker (u8 jpeg_app0_sof0 (j + 1))
            /\ 800 = BE16 jpeg_app0_sof0 (j + 7) /\ 600 = BE16 jpeg_app0_sof0 (j + 5).
Proof.
  apply (getJpegDimensions_source jpeg_app0_sof0 2 {| width := 800; height := 600 |});
    [reflexivity | discriminate].
Defined.

Lemma AvifWalk_source (bytes : Uint8Array) (start : Z) (d : Dimensions) :
  AvifWalk bytes start d -> d <> fallback ->
  exists o, o < len bytes - 8 /\ typeAt bytes o ispe /\ BE32 bytes o <> 0
            /\ width d = BE32 bytes (o + 12) /\ height d = BE32 bytes (o + 16).
Proof.
  intros Hw Hd.
  induction Hw as [o Hge|o Hlt Hz|o Hlt Hz Hi|o d Hlt Hz Hm _ IH
                  |o d Hlt Hz Hc _ IH|o d Hlt Hz Hi Hm Hp Hc _ IH].
  - exfalso. by apply Hd.
  - exfalso. by apply Hd.
  - exists o. split; [done|]. split; [done|]. split; [done|]. split; reflexivity.
  - by apply IH.
  - by apply IH.
  - by apply IH.
Qed.

(** X7.  Dimensions other than (1920, 1080) returned for an AVIF are always read
    from a box of type "ispe" with a non-zero size field, whose start leaves
    more than 8 bytes of the buffer. *)
Theorem getAvifDimensions_source (bytes : Uint8Array) (fuel : nat) (d : Dimensions) :
  getAvifDimensions fuel bytes = Some d -> d <> fallback ->
  exists o, o < len bytes - 8 /\ typeAt bytes o ispe /\ BE32 bytes o <> 0
            /\ width d = BE32 bytes (o + 12) /\ height d = BE32 bytes (o + 16).
Proof.
  unfold getAvifDimensions. intros Hw%avifLoop_walk. by apply (AvifWalk_source bytes 0).
Qed.

Lemma getAvifDimensions_source_witness :
  exists o, o < len avif_1200x800 - 8 /\ typeAt avif_1200x800 o ispe
            /\ BE32 avif_1200x800 o <> 0
            /\ 1200 = BE32 avif_1200x800 (o + 12) /\ 800 = BE32 avif_1200x800 (o + 16).
Proof.
  apply (getAvifDimensions_source avif_1200x800 5 {| width := 1200; height := 800 |});
    [reflexivity | discriminate].
Defined.

(** ** The assembled record *)

(** X9.  A buffer that no signature rule matches (the empty buffer and every
    buffer shorter than 3 bytes among them) gets the record
    1920 x 1080, "unknown", "landscape". *)
Theorem getImageInfo_unknown (data : ArrayBuffer) (fuel : nat) :
  detectFormat data = "unknown" \/ (length data < 3)%nat ->
  getImageInfo fuel data
  = Some {| info_width := 1920; info_height := 1080;
            info_format := "unknown"; info_orientation := "landscape" |}.
Proof.
  intros H.
  assert (Hfmt : detectFormat data = "unknown").
  { destruct H as [?|?]; [done|]. rewrite detectFormat_firstMatch.
    by apply firstMatch_short. }
  unfold getImageInfo, getImageDimensions. cbv zeta. by rewrite Hfmt.
Qed.

Lemma getImageInfo_unknown_witness :
  getImageInfo 0 []
  = Some {| info_width := 1920; info_height := 1080;
            info_format := "unknown"; info_orientation := "landscape" |}.
Proof. apply getImageInfo_unknown. right. simpl. lia. Defined.

(** ** The lookup tables *)

Lemma keys_of_table (l : list (string * string)) (s : string) :
  is_Some ((list_to_map l : gmap string string) !! s) <-> In s (l.*1).
Proof.
  rewrite <- elem_of_dom, dom_list_to_map_L, elem_of_list_to_set.
  apply list_elem_of_In.
Qed.

Lemma table_keys (s : string) :
  (is_Some (extensions !! s) <-> In s supported)
  /\ (is_Some (types !! s) <-> In s supported).
Proof. unfold extensions, types. by rewrite !keys_of_table. Qed.

(** X10.  The two tables and the list of supported formats have the same six
    keys: a key has an extension exactly when it has a content type, and
    exactly when it is in the list. *)
Theorem tables_same_keys (s : string) :
  (is_Some (extensions !! s) <-> is_Some (types !! s))
  /\ (is_Some (types !! s) <-> In s supported).
Proof. destruct (table_keys s) as [He Ht]. split; [by rewrite He, Ht | done]. Qed.

Lemma in_supported_cases (s : string) :
  In s supported ->
  s = "jpeg" \/ s = "jpg" \/ s = "png" \/ s = "gif" \/ s = "webp" \/ s = "avif".
Proof. simpl. intuition. Qed.

Lemma getProp_unknown (own : gmap string string) (s : string) :
  own !! s = None -> s ∉ ObjectPrototype -> getProp own s = None.
Proof. intros H Hs. unfold getProp. rewrite H. by rewrite decide_False. Qed.

(** X11.  Away from the names inherited from [Object.prototype], the extension
    [getExtension] gives for a key has the content type of the key itself:
    "jpeg" and "jpg" share "image/jpeg", and an unknown key keeps the
    generic type. *)
Theorem getContentType_of_extension (s : string) :
  s ∉ ObjectPrototype ->
  exists e, getExtension s = Str e /\ getContentType e = getContentType s.
Proof.
  intros Hs. destruct (extensions !! s) as [v|] eqn:E.
  - assert (Hin : In s supported) by (apply (proj1 (table_keys s)); by rewrite E).
    apply in_supported_cases in Hin.
    destruct Hin as [->|[->|[->|[->|[->| ->]]]]]; eexists; split; reflexivity.
  - exists s. split; [|done].
    unfold getExtension. by rewrite getProp_unknown.
Qed.

Lemma getContentType_of_extension_witness :
  exists e, getExtension "jpeg" = Str e /\ getContentType e = getContentType "jpeg".
Proof. apply getContentType_of_extension. vm_compute. by intros H. Defined.

(** X12.  On the format [detectFormat] names, the lookups always give strings:
    the extension is the format itself, but "jpg" for "jpeg", and the
    content type is "image/" followed by the format, but the generic
    "application/octet-stream" for "unknown". *)
Theorem lookups_of_detectFormat (data : ArrayBuffer) :
  getExtension (detectFormat data)
  = Str (if String.eqb (detectFormat data) "jpeg" then "jpg" else detectFormat data)
  /\ getContentType (detectFormat data)
  = Str (if String.eqb (detectFormat data) "unknown" then "application/octet-stream"
         else String.append "image/" (detectFormat data)).
Proof.
  rewrite detectFormat_firstMatch.
  destruct (firstMatch_cases data) as [[-> _]|[[-> _]|[[-> _]|[[-> _]|[[-> _]| ->]]]]];
    split; reflexivity.
Qed.

(** ** The support test *)

Lemma lowerChar_idemp (c : ascii) : lowerChar (lowerChar c) = lowerChar c.
Proof. destruct c as [[] [] [] [] [] [] [] []]; reflexivity. Qed.

Lemma toLowerCase_idemp (s : string) : toLowerCase (toLowerCase s) = toLowerCase s.
Proof. induction s as [|c s IH]; simpl; [done|]. by rewrite lowerChar_idemp, IH. Qed.

Lemma includes_In (l : list string) (s : string) : includes l s = true <-> In s l.
Proof.
  unfold includes. rewrite existsb_exists. split.
  - intros (x & Hx & ->%String.eqb_eq). done.
  - intros H. exists s. split; [done|]. apply String.eqb_refl.
Qed.

Lemma isSupportedFormat_In (s : string) :
  isSupportedFormat s = true <-> In (toLowerCase s) supported.
Proof. apply includes_In. Qed.

Lemma supported_lower (s : string) : In s supported -> toLowerCase s = s.
Proof.
  intros H%in_supported_cases.
  destruct H as [->|[->|[->|[->|[->| ->]]]]]; reflexivity.
Qed.

Lemma prototype_not_supported (s : string) :
  s ∈ ObjectPrototype -> ~ In (toLowerCase s) supported.
Proof.
  unfold ObjectPrototype. rewrite elem_of_list_to_set. intros H.
  repeat (apply elem_of_cons in H as [->|H];
          [intros Hin%in_supported_cases; vm_compute in Hin;
           repeat (destruct Hin as [Hin|Hin]; [discriminate Hin|]); discriminate Hin|]).
  by apply elem_of_nil in H.
Qed.

(** X13.  The support test ignores letter case: a format is supported exactly
    when its lower-case form is, and the lower-case form of a supported
    format is one of the six table keys. *)
Theorem isSupportedFormat_case_insensitive (s : string) :
  isSupportedFormat (toLowerCase s) = isSupportedFormat s
  /\ (isSupportedFormat s = true <-> is_Some (types !! toLowerCase s)).
Proof.
  split.
  - unfold isSupportedFormat. by rewrite toLowerCase_idemp.
  - rewrite isSupportedFormat_In. symmetry. apply (proj2 (table_keys _)).
Qed.

(** X14.  For a supported format both lookups return strings, never a member
    inherited from [Object.prototype].  But the tables are case-sensitive
    where the support test is not: a supported format gets the generic
    content type, and itself as extension, exactly when it is not written in
    lower case. *)
Theorem supported_lookups (s : string) :
  isSupportedFormat s = true ->
  (exists t e, getContentType s = Str t /\ getExtension s = Str e)
  /\ (getContentType s = Str "application/octet-stream" <-> s <> toLowerCase s)
  /\ (s <> toLowerCase s -> getExtension s = Str s).
Proof.
  intros Hsup%isSupportedFormat_In.
  assert (Hproto : s ∉ ObjectPrototype).
  { intros Hp. by apply (prototype_not_supported s). }
  destruct (decide (s = toLowerCase s)) as [Heq|Hne].
  - rewrite <- Heq in Hsup. apply in_supported_cases in Hsup.
    destruct Hsup as [->|[->|[->|[->|[->| ->]]]]];
      (split; [eexists _, _; split; reflexivity|]);
      (split; [split; [intros H; discriminate H | intros H; by destruct H]|]);
      intros H; by destruct H.
  - assert (Hnot : ~ In s supported).
    { intros Hin. apply Hne. symmetry. by apply supported_lower. }
    assert (Ht : types !! s = None).
    { apply eq_None_not_Some. intros H. by apply Hnot, (proj2 (table_keys s)). }
    assert (He : extensions !! s = None).
    { apply eq_None_not_Some. intros H. by apply Hnot, (proj1 (table_keys s)). }
    unfold getContentType, getExtension.
    rewrite (getProp_unknown types s Ht Hproto), (getProp_unknown extensions s He Hproto).
    simpl. split; [by eexists _, _|]. split; [done|done].
Qed.

Lemma supported_lookups_witness :
  (exists t e, getContentType "PNG" = Str t /\ getExtension "PNG" = Str e)
  /\ (getContentType "PNG" = Str "application/octet-stream" <-> "PNG" <> toLowerCase "PNG")
  /\ ("PNG" <> toLowerCase "PNG" -> getExtension "PNG" = Str "PNG").
Proof. apply supported_lookups. reflexivity. Defined.

(** X15.  Every format that [detectFormat] names is supported, except "unknown". *)
Theorem isSupportedFormat_of_detectFormat (data : ArrayBuffer) :
  isSupportedFormat (detectFormat data) = negb (String.eqb (detectFormat data) "unknown").
Proof.
  rewrite detectFormat_firstMatch.
  destruct (firstMatch_cases data) as [[-> _]|[[-> _]|[[-> _]|[[-> _]|[[-> _]| ->]]]]];
    reflexivity.
Qed.

(** ** GIF *)

(** X16.  [getGifDimensions] returns the unsigned little-endian 16-bit values at
    offsets 6 and 8, bytes past the end counting as 0; a GIF buffer of 6
    bytes or fewer therefore gives (0, 0). *)
Theorem getGifDimensions_unsigned (bytes : Uint8Array) :
  getGifDimensions bytes = {| width := LE16 bytes 6; height := LE16 bytes 8 |}
  /\ ((length bytes <= 6)%nat ->
      getGifDimensions bytes = {| width := 0; height := 0 |}).
Proof.
  unfold getGifDimensions. rewrite !le16_val. split; [done|].
  intros Hlen. unfold LE16. by rewrite !u8_ge by (unfold len; lia).
Qed.

Lemma getGifDimensions_unsigned_witness :
  getGifDimensions [x47; x49; x46; x38; x39; x61] = {| width := 0; height := 0 |}.
Proof. apply getGifDimensions_unsigned. simpl. lia. Defined.

(** ** Progress of the two loops *)

(** X17.  A round of the JPEG scan never leaves the loop by [break] and always
    moves forward, by at least 1 and at most 2 + 65535 bytes. *)
Theorem jpegBody_forward (bytes : Uint8Array) (i : Z) :
  jpegBody bytes i <> Break
  /\ (forall i', jpegBody bytes i = Next i' -> i < i' <= i + 65537).
Proof.
  rewrite jpegBody_spec. pose proof (BE16_range bytes (i + 2)).
  repeat case_bool_decide; (split; [done|]); intros i' [= <-]; lia.
Qed.

Lemma jpegBody_forward_witness : 2 < 20 <= 2 + 65537.
Proof. apply (proj2 (jpegBody_forward jpeg_app0_sof0 2)). reflexivity. Defined.

(** X18.  A round of the AVIF walk never stays where it is, and it moves forward,
    by at least 1 byte, unless it skips a box whose size field has its top
    bit set; only then does it move backwards. *)
Theorem avifBody_moves (bytes : Uint8Array) (o o' : Z) :
  avifBody bytes o = Next o' ->
  o' <> o /\ (o' < o -> BE32 bytes o < 0 /\ o' = o + BE32 bytes o
              /\ ~ typeAt bytes o meta /\ ~ typeAt bytes o iprp /\ ~ typeAt bytes o ipco).
Proof.
  rewrite avifBody_spec.
  repeat case_bool_decide; intros [= <-]; (split; [lia|]); intros Hback;
    try lia.
  repeat split; (lia || tauto).
Qed.

Lemma avifBody_moves_witness :
  BE32 avif_cycle 16 < 0 /\ 0 = 16 + BE32 avif_cycle 16
  /\ ~ typeAt avif_cycle 16 meta /\ ~ typeAt avif_cycle 16 iprp
  /\ ~ typeAt avif_cycle 16 ipco.
Proof.
  apply (proj2 (avifBody_moves avif_cycle 16 0 (proj2 avif_cycle_rounds))). lia.
Defined.

(** ** AVIF: where the code follows the format *)

Lemma IsoWalk_total_from (bytes : Uint8Array) (n : nat) (o : Z) :
  len bytes - 8 - o <= Z.of_nat n -> exists reads d, IsoWalk bytes o reads d.
Proof.
  revert o. induction n as [|n IH]; intros o Hn.
  { exists [], fallback. apply iso_past_end. lia. }
  destruct (Z.le_gt_cases (len bytes - 8) o) as [Hge|Hlt].
  { exists [], fallback. by apply iso_past_end. }
  destruct (decide (UBE32 bytes o = 0)) as [Hz|Hz].
  { exists [o], fallback. by apply iso_size_zero. }
  destruct (decide (typeAt bytes o ispe)) as [Hi|Hi].
  { eexists _, _. by apply iso_ispe. }
  destruct (decide (typeAt bytes o meta)) as [Hm|Hm].
  { destruct (IH (o + 12)) as (reads & d & Hw); [lia|].
    exists (o :: reads), d. by apply iso_meta. }
  destruct (decide (typeAt bytes o iprp \/ typeAt bytes o ipco)) as [Hc|Hc].
  { destruct (IH (o + 8)) as (reads & d & Hw); [lia|].
    exists (o :: reads), d. by apply iso_container. }
  pose proof (UBE32_range bytes o).
  destruct (IH (o + UBE32 bytes o)) as (reads & d & Hw); [lia|].
  exists (o :: reads), d. apply iso_skip; tauto.
Qed.

Lemma IsoWalk_functional (bytes : Uint8Array) (o : Z) (reads reads' : list Z)
    (d d' : Dimensions) :
  IsoWalk bytes o reads d -> IsoWalk bytes o reads' d' -> reads = reads' /\ d = d'.
Proof.
  intros H. revert reads' d'.
  induction H as [o Hge|o Hlt Hz|o Hlt Hz Hi|o reads d Hlt Hz Hm _ IH
                 |o reads d Hlt Hz Hc _ IH|o reads d Hlt Hz Hi Hm Hp Hc _ IH];
    intros reads' d' H'; inversion H'; subst;
    try (split; reflexivity); try lia; try contradiction;
    try (match goal with
         | Hw : IsoWalk _ _ _ _ |- _ => destruct (IH _ _ Hw) as [-> ->]; by split
         end);
    exfalso;
    repeat match goal with H : _ \/ _ |- _ => destruct H end;
    try tauto;
    match goal with
    | H1 : typeAt _ ?o ?t, H2 : typeAt _ ?o ?t' |- _ =>
        pose proof (typeAt_unique _ _ _ _ H1 H2) as E; discriminate E
    end.
Qed.

Lemma IsoWalk_avif_1200x800 :
  IsoWalk avif_1200x800 0 [0; 24; 36; 44; 52; 64; 68] {| width := 1200; height := 800 |}.
Proof.
  apply iso_skip; [iso_side..|]. iso_at 24.
  apply iso_meta; [iso_side..|]. iso_at 36.
  apply iso_container; [iso_side..|]. iso_at 44.
  apply iso_container; [iso_side..|]. iso_at 52.
  change (IsoWalk avif_1200x800 52 [52; 52 + 12; 52 + 16]
            {| width := UBE32 avif_1200x800 (52 + 12);
               height := UBE32 avif_1200x800 (52 + 16) |}).
  apply iso_ispe; iso_side.
Qed.

Lemma IsoWalk_avif_no_ispe : IsoWalk avif_no_ispe 0 [0; 24; 36] fallback.
Proof.
  apply iso_skip; [iso_side..|]. iso_at 24.
  apply iso_meta; [iso_side..|]. iso_at 36.
  apply iso_container; [iso_side..|].
  apply iso_past_end. iso_side.
Qed.

(** X19.  The box walk of the format description, with unsigned sizes and
    fields, ends on every buffer and has one result.  [getAvifDimensions]
    returns that result, within one round for each 32-bit field read,
    whenever none of the fields read on the way (the box sizes, and the
    width and height of the ispe box) has its top bit set. *)
Theorem getAvifDimensions_unsigned_walk (bytes : Uint8Array) :
  (exists reads d, IsoWalk bytes 0 reads d)
  /\ (forall reads reads' d d',
        IsoWalk bytes 0 reads d -> IsoWalk bytes 0 reads' d' -> reads = reads' /\ d = d')
  /\ (forall reads d n,
        IsoWalk bytes 0 reads d ->
        Forall (fun p => u8 bytes p < 128) reads ->
        (length reads <= n)%nat ->
        getAvifDimensions n bytes = Some d).
Proof.
  split; [apply (IsoWalk_total_from bytes (length bytes)); unfold len; lia|].
  split; [intros reads reads' d d'; apply IsoWalk_functional|].
  intros reads d n Hw Hlow Hn. unfold getAvifDimensions.
  apply (avifLoop_mono _ (length reads)); [by apply IsoWalk_avifLoop | done].
Qed.

Lemma getAvifDimensions_unsigned_walk_witness :
  getAvifDimensions 7 avif_1200x800 = Some {| width := 1200; height := 800 |}
  /\ getAvifDimensions 3 avif_no_ispe = Some fallback.
Proof.
  split.
  - apply (proj2 (proj2 (getAvifDimensions_unsigned_walk avif_1200x800))
             [0; 24; 36; 44; 52; 64; 68]);
      [exact IsoWalk_avif_1200x800 | repeat constructor; vm_compute; reflexivity
      | simpl; lia].
  - apply (proj2 (proj2 (getAvifDimensions_unsigned_walk avif_no_ispe)) [0; 24; 36]);
      [exact IsoWalk_avif_no_ispe | repeat constructor; vm_compute; reflexivity
      | simpl; lia].
Defined.
